(** * Bech32 script-address encoder: a shallow embedding of
    [backend/scripts/convert-addresses.py] and its verification.

    Python integers are unbounded, so every integer is a [Z] and the bit
    operators are [Z.land], [Z.lor], [Z.lxor], [Z.shiftl], [Z.shiftr]
    (two's complement on negative numbers, as in Python).  Python strings are
    [string]s of 8-bit characters, byte strings and lists of numbers are
    [list Z].  A call either returns, raises, or loops for ever: this is the
    [outcome] type.  The [print] calls at the end of the script are
    demonstration code and are not modelled; the two hashes they print are
    kept as constants. *)

From Stdlib Require Import ZArith Lia Bool Ascii String.
From stdpp Require Import base tactics option list.

Local Open Scope Z_scope.

(** ** Outcomes of a Python call *)

Inductive exn : Type :=
| ValueError   (* negative shift count, bytes.fromhex on bad input *)
| IndexError   (* string index out of range *)
| TypeError.   (* None used as a list *)

Inductive outcome (A : Type) : Type :=
| Return (a : A)
| Raise (e : exn)
| Diverge.

Arguments Return {A} a.
Arguments Raise {A} e.
Arguments Diverge {A}.

Definition obind {A B : Type} (m : outcome A) (k : A -> outcome B) : outcome B :=
  match m with
  | Return a => k a
  | Raise e => Raise e
  | Diverge => Diverge
  end.

Notation "'do' x <- m ; k" := (obind m (fun x => k))
  (at level 10, x pattern, m at level 100, k at level 200,
   format "'[v' 'do'  x  <-  m ; '/' k ']'").

(** ** Python primitives used by the script *)

(** [a << n] and [a >> n]: a negative shift count raises ValueError. *)
Definition py_lshift (a n : Z) : outcome Z :=
  if n <? 0 then Raise ValueError else Return (Z.shiftl a n).

Definition py_rshift (a n : Z) : outcome Z :=
  if n <? 0 then Raise ValueError else Return (Z.shiftr a n).

(** [ord(x)] *)
Definition ord (x : ascii) : Z := Z.of_N (N_of_ascii x).

(** [s.replace('0x', '')]: every non-overlapping occurrence, scanning from the
    left, is removed; the result is not scanned again. *)
Fixpoint replace_0x (s : string) : string :=
  match s with
  | EmptyString => EmptyString
  | String c rest =>
      match rest with
      | String d rest' =>
          if (Ascii.eqb c "0" && Ascii.eqb d "x")%bool then replace_0x rest'
          else String c (replace_0x rest)
      | EmptyString => String c EmptyString
      end
  end.

(** The characters [bytes.fromhex] skips between bytes: Py_ISSPACE, that is
    tab, line feed, vertical tab, form feed, carriage return and space. *)
Definition is_space (c : ascii) : bool :=
  let n := ord c in ((9 <=? n) && (n <=? 13) || (n =? 32))%bool.

Definition hex_digit (c : ascii) : option Z :=
  let n := ord c in
  if (48 <=? n) && (n <=? 57) then Some (n - 48)
  else if (97 <=? n) && (n <=? 102) then Some (n - 87)
  else if (65 <=? n) && (n <=? 70) then Some (n - 55)
  else None.

(** [bytes.fromhex(s)]: white space is skipped before each byte, then two hex
    digits are read; anything else raises ValueError. *)
Fixpoint fromhex (s : string) : outcome (list Z) :=
  match s with
  | EmptyString => Return []
  | String c rest =>
      if is_space c then fromhex rest
      else match hex_digit c, rest with
           | Some top, String d rest' =>
               match hex_digit d with
               | Some bot => do bs <- fromhex rest'; Return ((top * 16 + bot) :: bs)
               | None => Raise ValueError
               end
           | _, _ => Raise ValueError
           end
  end.

(** ** The script *)

(** [GEN] of [bech32_polymod]. *)
Definition GEN : list Z :=
  [0x3b6a57b2; 0x26508e6d; 0x1ea119fa; 0x3d4233dd; 0x2a1462b3].

(** [range(n)] as integers. *)
Definition range (n : nat) : list Z := map Z.of_nat (seq 0 n).

(** The operand [GEN[i] if ((b >> i) & 1) else 0]. *)
Definition gen_select (b i : Z) : Z :=
  if Z.land (Z.shiftr b i) 1 =? 0 then 0 else nth (Z.to_nat i) GEN 0.

(** One turn of the [for value in values] loop of [bech32_polymod]. *)
Definition polymod_step (chk value : Z) : Z :=
  let b := Z.shiftr chk 25 in
  let chk := Z.lxor (Z.shiftl (Z.land chk 0x1ffffff) 5) value in
  fold_left (fun chk i => Z.lxor chk (gen_select b i)) (range 5) chk.

Definition bech32_polymod (values : list Z) : Z :=
  fold_left polymod_step values 1.

Definition bech32_hrp_expand (hrp : string) : list Z :=
  let cs := list_ascii_of_string hrp in
  map (fun x => Z.shiftr (ord x) 5) cs ++ [0] ++ map (fun x => Z.land (ord x) 31) cs.

Definition bech32_create_checksum (hrp : string) (data : list Z) : list Z :=
  let values := bech32_hrp_expand hrp ++ data in
  let polymod := Z.lxor (bech32_polymod (values ++ [0; 0; 0; 0; 0; 0])) 1 in
  map (fun i => Z.land (Z.shiftr polymod (5 * (5 - i))) 31) (range 6).

Definition BECH32_CHARSET : string := "qpzry9x8gf2tvdw0s3jn54khce6mua7l".

(** [BECH32_CHARSET[d]]: indices from -32 to -1 count from the end, anything
    outside [-32, 31] raises IndexError. *)
Definition charset_get (d : Z) : outcome ascii :=
  let i := if d <? 0 then d + 32 else d in
  if (0 <=? i) && (i <? 32) then
    match String.get (Z.to_nat i) BECH32_CHARSET with
    | Some c => Return c
    | None => Raise IndexError
    end
  else Raise IndexError.

(** The list comprehension [[BECH32_CHARSET[d] for d in combined]], joined. *)
Fixpoint charset_map (combined : list Z) : outcome string :=
  match combined with
  | [] => Return EmptyString
  | d :: rest =>
      do c <- charset_get d;
      do s <- charset_map rest;
      Return (String c s)
  end.

Definition bech32_encode (hrp : string) (data : list Z) : outcome string :=
  let combined := data ++ bech32_create_checksum hrp data in
  do body <- charset_map combined;
  Return (hrp ++ "1" ++ body)%string.

(** The [while bits >= tobits] loop of [convertbits].  It leaves through its
    test only; the recursion is on a bound [fuel] on the number of turns. *)
Fixpoint while_emit (fuel : nat) (tobits maxv acc bits : Z) (ret : list Z)
  : outcome (Z * list Z) :=
  if bits <? tobits then Return (bits, ret)
  else match fuel with
       | O => Diverge
       | S fuel' =>
           let bits := bits - tobits in
           do chunk <- py_rshift acc bits;
           while_emit fuel' tobits maxv acc bits (ret ++ [Z.land chunk maxv])
       end.

(** With [0 < tobits] every turn takes at least one bit away, so [bits] turns
    are enough and the bound is never hit; with [tobits <= 0] the test
    [bits >= tobits] stays true once it is, and the loop never ends. *)
Definition emit_chunks (tobits maxv acc bits : Z) (ret : list Z)
  : outcome (Z * list Z) :=
  while_emit (Z.to_nat bits) tobits maxv acc bits ret.

(** The body of [for value in data]; the state is [(acc, bits, ret)]. *)
Definition convert_step (frombits tobits maxv max_acc : Z)
    (st : Z * Z * list Z) (value : Z) : outcome (Z * Z * list Z) :=
  let '(acc, bits, ret) := st in
  do sh <- py_lshift acc frombits;
  let acc := Z.land (Z.lor sh value) max_acc in
  let bits := bits + frombits in
  do br <- emit_chunks tobits maxv acc bits ret;
  Return (acc, br.1, br.2).

Fixpoint convert_loop (frombits tobits maxv max_acc : Z)
    (st : Z * Z * list Z) (data : list Z) : outcome (Z * Z * list Z) :=
  match data with
  | [] => Return st
  | value :: rest =>
      do st' <- convert_step frombits tobits maxv max_acc st value;
      convert_loop frombits tobits maxv max_acc st' rest
  end.

(** [convertbits]; the result [None] is Python's [None]. *)
Definition convertbits (data : list Z) (frombits tobits : Z) (pad : bool)
  : outcome (option (list Z)) :=
  do one <- py_lshift 1 tobits;
  let maxv := one - 1 in
  do one' <- py_lshift 1 (frombits + tobits - 1);
  let max_acc := one' - 1 in
  do st <- convert_loop frombits tobits maxv max_acc (0, 0, []) data;
  let '(acc, bits, ret) := st in
  if pad then
    if bits =? 0 then Return (Some ret)
    else do sh <- py_lshift acc (tobits - bits);
         Return (Some (ret ++ [Z.land sh maxv]))
  else if bits >=? frombits then Return None
  else do sh <- py_lshift acc (tobits - bits);
       if Z.land sh maxv =? 0 then Return (Some ret) else Return None.

Definition header_byte (network : string) : list Z :=
  if String.eqb network "mainnet" then [0x71] else [0x70].

Definition prefix_of (network : string) : string :=
  if String.eqb network "mainnet" then "addr" else "addr_test".

Definition script_hash_to_address (script_hash network : string) : outcome string :=
  let hash_hex := replace_0x script_hash in
  do hash_bytes <- fromhex hash_hex;
  let address_bytes := header_byte network ++ hash_bytes in
  let address_data := address_bytes in
  do five_bit_data <- convertbits address_data 8 5 true;
  let prefix := prefix_of network in
  match five_bit_data with
  | Some data => bech32_encode prefix data
  | None => Raise TypeError
  end.

Definition ESCROW_SCRIPT_HASH : string :=
  "795b08f17216887d0fdd83dec60790a79fba0998ac9d76eb2c7ed80a".
Definition POOL_SCRIPT_HASH : string :=
  "734799794c30fc4fe3431c3ccf811d15b6fed58d397d2cf1cde33a43".


(** ** The reference procedure of the specification (section 4.2) *)

Module Reference.

(** Step 1: the values [codepoint >> 5], a single 0, the values
    [codepoint & 31]. *)
Definition expand (prefix : string) : list Z :=
  let codepoints := map ord (list_ascii_of_string prefix) in
  map (fun c => Z.shiftr c 5) codepoints ++ [0]
    ++ map (fun c => Z.land c 31) codepoints.

(** XOR the constant in when the corresponding bit of [b] is set. *)
Definition xor_if_bit (b : Z) (i : Z) (constant : Z) (state : Z) : Z :=
  if Z.testbit b i then Z.lxor state constant else state.

(** Step 3, for one input value [v]. *)
Definition step (state v : Z) : Z :=
  let b := Z.shiftr state 25 in
  let state := Z.lxor (Z.shiftl (Z.land state 0x1ffffff) 5) v in
  xor_if_bit b 4 0x2a1462b3
    (xor_if_bit b 3 0x3d4233dd
       (xor_if_bit b 2 0x1ea119fa
          (xor_if_bit b 1 0x26508e6d
             (xor_if_bit b 0 0x3b6a57b2 state)))).

Definition polymod (values : list Z) : Z := fold_left step values 1.

(** Steps 2 to 5. *)
Definition checksum (prefix : string) (payload : list Z) : list Z :=
  let values := expand prefix ++ payload in
  let result := Z.lxor (polymod (values ++ [0; 0; 0; 0; 0; 0])) 1 in
  [ Z.land (Z.shiftr result 25) 31; Z.land (Z.shiftr result 20) 31;
    Z.land (Z.shiftr result 15) 31; Z.land (Z.shiftr result 10) 31;
    Z.land (Z.shiftr result 5) 31;  Z.land (Z.shiftr result 0) 31 ].

End Reference.

(** The value of a list of [w]-bit digits, most significant first: the bit
    stream of section 4.1 read as one number. *)
Definition digits_value (w : Z) (l : list Z) : Z :=
  fold_left (fun n d => n * 2 ^ w + d) l 0.

Definition fits (w : Z) (l : list Z) : Prop := Forall (fun v => 0 <= v < 2 ^ w) l.

Definition is_ascii (s : string) : Prop :=
  Forall (fun c => ord c < 128) (list_ascii_of_string s).

(** A character of the alphabet. *)
Definition in_charset (c : ascii) : Prop :=
  In c (list_ascii_of_string BECH32_CHARSET).

(** What the state [(acc, bits, ret)] of the loop of [convertbits] says about
    the input [seen] so far: [acc] holds its low bits, [ret] its bits above
    the [bits] still buffered. *)
Definition loop_inv (frombits tobits : Z) (seen : list Z) (st : Z * Z * list Z)
  : Prop :=
  let '(acc, bits, ret) := st in
  let n := digits_value frombits seen in
  0 <= bits < tobits /\
  acc = n mod 2 ^ (frombits + tobits - 1) /\
  digits_value tobits ret = n / 2 ^ bits /\
  Z.of_nat (length ret) * tobits + bits = Z.of_nat (length seen) * frombits /\
  fits tobits ret.

(** The character the alphabet holds at index [d], for [d] in [0,31]. *)
Definition charset_char (d : Z) : ascii :=
  nth (Z.to_nat d) (list_ascii_of_string BECH32_CHARSET) "q"%char.

(** The pipeline of [script_hash_to_address] from line 65 on, for a given
    header byte and prefix. *)
Definition build_address (header : Z) (prefix : string) (script_hash : string)
  : outcome string :=
  do hash_bytes <- fromhex (replace_0x script_hash);
  do five_bit_data <- convertbits (header :: hash_bytes) 8 5 true;
  match five_bit_data with
  | Some data => bech32_encode prefix data
  | None => Raise TypeError
  end.

(** ["0x"] occurs somewhere in [s]. *)
Fixpoint contains_0x (s : string) : bool :=
  match s with
  | EmptyString => false
  | String c rest =>
      match rest with
      | String d _ => (Ascii.eqb c "0" && Ascii.eqb d "x") || contains_0x rest
      | EmptyString => false
      end
  end.

Definition is_hex (c : ascii) : bool :=
  match hex_digit c with Some _ => true | None => false end.

(** The number of hex digits of [s]. *)
Fixpoint count_hex (s : string) : nat :=
  match s with
  | EmptyString => O
  | String c rest => ((if is_hex c then 1 else 0) + count_hex rest)%nat
  end.

(** The value of a string of hex digit pairs, byte by byte. *)
Fixpoint hex_pairs (s : string) : option (list Z) :=
  match s with
  | EmptyString => Some []
  | String c (String d rest) =>
      match hex_digit c, hex_digit d, hex_pairs rest with
      | Some top, Some bot, Some bs => Some ((top * 16 + bot) :: bs)
      | _, _, _ => None
      end
  | String _ EmptyString => None
  end.

(** The decoding step in the words of the specification (section 4.4):
    one optional leading ["0x"] is stripped ... *)
Definition strip_leading_0x (s : string) : string :=
  match s with
  | String "0" (String "x" rest) => rest
  | _ => s
  end.

(** ... and the remainder is rejected when it has odd length or holds a
    character that is not a hex digit. *)
Definition spec_rejects (remainder : string) : bool :=
  Nat.odd (String.length remainder)
  || negb (forallb is_hex (list_ascii_of_string remainder)).

(** The runs of the loop [while bits >= tobits: bits -= tobits;
    ret.append((acc >> bits) & maxv)] that end, from a state [(bits, ret)] to
    the state at the exit. *)
Inductive while_exec (tobits maxv acc : Z) : Z * list Z -> Z * list Z -> Prop :=
| while_exit bits ret :
    bits < tobits ->
    while_exec tobits maxv acc (bits, ret) (bits, ret)
| while_turn bits ret st :
    tobits <= bits ->
    while_exec tobits maxv acc
      (bits - tobits, ret ++ [Z.land (Z.shiftr acc (bits - tobits)) maxv]) st ->
    while_exec tobits maxv acc (bits, ret) st.

(** What [bytes.fromhex] reads: white space before a byte is skipped, a
    byte is two adjacent hex digits, and nothing else is a hex string. *)
Inductive decodes : string -> list Z -> Prop :=
| decodes_end : decodes EmptyString []
| decodes_space c rest bs :
    is_space c = true -> decodes rest bs -> decodes (String c rest) bs
| decodes_byte c d rest top bot bs :
    hex_digit c = Some top -> hex_digit d = Some bot -> decodes rest bs ->
    decodes (String c (String d rest)) ((top * 16 + bot) :: bs).

(** ** The module's globals

    [bech32_encode] reads the global name [BECH32_CHARSET] each time it
    indexes it, when it is called.  To speak of calls made one after another
    the globals are a store that every call receives and hands on; a call that
    raises hands on the store as it was at the raise. *)













Inductive value : Type :=
| v_list (l : list Z)
| v_none
| v_str (s : string).




(** ** Bit-level facts on [Z] *)

Section ZBits.

Lemma pow2_pos n : 0 <= n -> 0 < 2 ^ n.
Proof. intros; apply Z.pow_pos_nonneg; lia. Qed.

Lemma land_mask a n : 0 <= n -> Z.land a (2 ^ n - 1) = a mod 2 ^ n.
Proof.
  intros Hn. rewrite <- Z.land_ones by lia.
  f_equal. rewrite Z.ones_equiv. lia.
Qed.

Lemma land_mask_range a n : 0 <= n -> 0 <= Z.land a (2 ^ n - 1) <= 2 ^ n - 1.
Proof.
  intros Hn. rewrite land_mask by lia.
  pose proof (Z.mod_pos_bound a (2 ^ n) (pow2_pos n Hn)). lia.
Qed.

Lemma below_pow2_bits x n :
  0 <= n -> 0 <= x < 2 ^ n -> forall i, n <= i -> Z.testbit x i = false.
Proof.
  intros Hn [Hx0 Hx] i Hi.
  destruct (Z.eq_dec x 0) as [->|Hne]; [apply Z.testbit_0_l|].
  apply Z.bits_above_log2; [lia|].
  assert (Z.log2 x < n) by (apply Z.log2_lt_pow2; lia). lia.
Qed.

Lemma bits_below_pow2 x n :
  0 <= n -> 0 <= x -> (forall i, n <= i -> Z.testbit x i = false) ->
  0 <= x < 2 ^ n.
Proof.
  intros Hn Hx Hbits.
  assert (x = x mod 2 ^ n) as ->.
  { apply Z.bits_inj'. intros i Hi.
    destruct (Z.lt_ge_cases i n).
    - now rewrite Z.mod_pow2_bits_low by lia.
    - rewrite Z.mod_pow2_bits_high by lia. now apply Hbits. }
  apply Z.mod_pos_bound, pow2_pos, Hn.
Qed.

Lemma lxor_below_pow2 a b n :
  0 <= n -> 0 <= a < 2 ^ n -> 0 <= b < 2 ^ n -> 0 <= Z.lxor a b < 2 ^ n.
Proof.
  intros Hn Ha Hb. apply bits_below_pow2; [lia| |].
  - apply Z.lxor_nonneg. lia.
  - intros i Hi. rewrite Z.lxor_spec.
    now rewrite (below_pow2_bits a n), (below_pow2_bits b n).
Qed.

Lemma lor_shiftl_add a v n :
  0 <= n -> 0 <= v < 2 ^ n -> Z.lor (Z.shiftl a n) v = a * 2 ^ n + v.
Proof.
  intros Hn Hv.
  rewrite <- Z.shiftl_mul_pow2 by lia.
  rewrite <- Z.lxor_lor, <- Z.add_nocarry_lxor; trivial.
  all: apply Z.bits_inj'; intros i Hi; rewrite Z.land_spec, Z.testbit_0_l.
  all: destruct (Z.lt_ge_cases i n);
    [ rewrite Z.shiftl_spec_low by lia; reflexivity
    | rewrite (below_pow2_bits v n) by lia; apply andb_false_r ].
Qed.

(** Reading [t] bits at offset [b] of [n], when the slice lies below the
    [k]-bit mask put on [n]. *)
Lemma slice_of_masked n k b t :
  0 <= b -> 0 <= t -> b + t <= k ->
  ((n mod 2 ^ k) / 2 ^ b) mod 2 ^ t = (n / 2 ^ b) mod 2 ^ t.
Proof.
  intros Hb Ht Hk. apply Z.bits_inj'. intros i Hi.
  destruct (Z.lt_ge_cases i t).
  - rewrite !Z.mod_pow2_bits_low by lia.
    rewrite !Z.div_pow2_bits by lia.
    now rewrite Z.mod_pow2_bits_low by lia.
  - now rewrite !Z.mod_pow2_bits_high by lia.
Qed.

Lemma div_pow2_add n a b :
  0 <= a -> 0 <= b -> n / 2 ^ (a + b) = n / 2 ^ a / 2 ^ b.
Proof.
  intros Ha Hb. rewrite Z.pow_add_r by lia.
  rewrite Z.div_div; [reflexivity | | ]; apply Z.pow_nonzero || apply pow2_pos; lia.
Qed.

End ZBits.

(** ** The checksum: [bech32_polymod] and [bech32_create_checksum] *)

Section Polymod.

Lemma lxor_swap4 a b c d :
  Z.lxor (Z.lxor a b) (Z.lxor c d) = Z.lxor (Z.lxor a c) (Z.lxor b d).
Proof.
  rewrite !Z.lxor_assoc. f_equal.
  rewrite <- !Z.lxor_assoc. f_equal. apply Z.lxor_comm.
Qed.

Lemma land_lxor_l a b m :
  Z.land (Z.lxor a b) m = Z.lxor (Z.land a m) (Z.land b m).
Proof.
  apply Z.bits_inj'. intros i _.
  rewrite !Z.land_spec, !Z.lxor_spec, !Z.land_spec.
  now destruct (Z.testbit a i), (Z.testbit b i), (Z.testbit m i).
Qed.

Lemma gen_select_testbit b i :
  0 <= i ->
  gen_select b i = if Z.testbit b i then nth (Z.to_nat i) GEN 0 else 0.
Proof.
  intros Hi. unfold gen_select.
  change 1 with (Z.ones 1). rewrite Z.land_ones by lia.
  rewrite Z.shiftr_div_pow2 by lia. change (2 ^ 1) with 2.
  rewrite <- Z.testbit_spec' by lia.
  now destruct (Z.testbit b i).
Qed.

Lemma gen_select_lxor b1 b2 i :
  0 <= i ->
  gen_select (Z.lxor b1 b2) i = Z.lxor (gen_select b1 i) (gen_select b2 i).
Proof.
  intros Hi. rewrite !gen_select_testbit, Z.lxor_spec by lia.
  destruct (Z.testbit b1 i), (Z.testbit b2 i); simpl;
    now rewrite ?Z.lxor_nilpotent, ?Z.lxor_0_r, ?Z.lxor_0_l.
Qed.

Lemma gen_select_range b i : 0 <= gen_select b i < 2 ^ 30.
Proof.
  unfold gen_select. destruct (_ =? 0); [lia|].
  destruct (Z.to_nat i) as [|[|[|[|[|n]]]]]; simpl; try lia.
  destruct n; simpl; lia.
Qed.

Lemma In_range i n : In i (range n) -> 0 <= i < Z.of_nat n.
Proof.
  unfold range. rewrite in_map_iff. intros (k & <- & Hk).
  apply in_seq in Hk. lia.
Qed.

(** The inner loop XORs its operands into whatever it starts from. *)
Lemma fold_lxor_linear (g g1 g2 : Z -> Z) (l : list Z) c1 c2 :
  (forall i, In i l -> g i = Z.lxor (g1 i) (g2 i)) ->
  fold_left (fun c i => Z.lxor c (g i)) l (Z.lxor c1 c2) =
  Z.lxor (fold_left (fun c i => Z.lxor c (g1 i)) l c1)
         (fold_left (fun c i => Z.lxor c (g2 i)) l c2).
Proof.
  revert c1 c2. induction l as [|i l IH]; intros c1 c2 Hg; [reflexivity|].
  simpl. rewrite (Hg i) by now left.
  rewrite lxor_swap4. apply IH. intros j Hj. apply Hg. now right.
Qed.

Lemma fold_lxor_range (g : Z -> Z) (l : list Z) c :
  (forall i, 0 <= g i < 2 ^ 30) -> 0 <= c < 2 ^ 30 ->
  0 <= fold_left (fun c i => Z.lxor c (g i)) l c < 2 ^ 30.
Proof.
  intros Hg. revert c. induction l as [|i l IH]; intros c Hc; [exact Hc|].
  simpl. apply IH. apply lxor_below_pow2; [lia | exact Hc | apply Hg].
Qed.

(** [polymod_step] is linear over XOR in its two arguments together. *)
Lemma polymod_step_lxor c1 c2 v1 v2 :
  polymod_step (Z.lxor c1 c2) (Z.lxor v1 v2) =
  Z.lxor (polymod_step c1 v1) (polymod_step c2 v2).
Proof.
  unfold polymod_step.
  rewrite land_lxor_l, Z.shiftl_lxor, lxor_swap4.
  apply fold_lxor_linear. intros i Hi.
  rewrite Z.shiftr_lxor. apply gen_select_lxor.
  apply In_range in Hi. lia.
Qed.

Lemma polymod_step_range c v :
  0 <= v < 2 ^ 30 -> 0 <= polymod_step c v < 2 ^ 30.
Proof.
  intros Hv. unfold polymod_step.
  apply fold_lxor_range; [intros i; apply gen_select_range|].
  apply lxor_below_pow2; [lia | | exact Hv].
  rewrite Z.shiftl_mul_pow2 by lia.
  change 0x1ffffff with (2 ^ 25 - 1).
  pose proof (land_mask_range c 25 ltac:(lia)). lia.
Qed.

(** The operands of one turn, XORed together. *)
Lemma polymod_step_split c v :
  polymod_step c v =
  Z.lxor (Z.lxor (Z.shiftl (Z.land c 0x1ffffff) 5) v)
         (fold_left (fun x i => Z.lxor x (gen_select (Z.shiftr c 25) i)) (range 5) 0).
Proof.
  unfold polymod_step.
  rewrite <- (Z.lxor_0_r (Z.lxor (Z.shiftl _ 5) v)) at 1.
  rewrite (fold_lxor_linear _ (fun _ => 0) (gen_select (Z.shiftr c 25))).
  - f_equal. generalize (Z.lxor (Z.shiftl (Z.land c 33554431) 5) v).
    induction (range 5) as [|i l IH]; intros x; [reflexivity|].
    simpl. rewrite Z.lxor_0_r. apply IH.
  - intros i _. now rewrite Z.lxor_0_l.
Qed.

(** The low five bits of the generator constants are independent: no
    non-empty selection of them XORs to a multiple of 32. *)
Lemma gen_low_bits_independent b :
  0 <= b < 32 ->
  Z.land (fold_left (fun x i => Z.lxor x (gen_select b i)) (range 5) 0) 31 = 0 ->
  b = 0.
Proof.
  intros Hb H.
  assert (forallb
            (fun b => negb (Z.land (fold_left (fun x i => Z.lxor x (gen_select b i))
                                      (range 5) 0) 31 =? 0) || (b =? 0))
            (range 32) = true) as Hall by (vm_compute; reflexivity).
  assert (In b (range 32)) as Hin.
  { unfold range. apply in_map_iff.
    exists (Z.to_nat b). split; [lia|]. apply in_seq. lia. }
  pose proof (proj1 (forallb_forall _ _) Hall b Hin) as Hb0.
  cbv beta in Hb0. rewrite H in Hb0. now apply Z.eqb_eq.
Qed.

(** A zero input value maps no non-zero 30-bit state to zero. *)
Lemma polymod_step_kernel d :
  0 <= d < 2 ^ 30 -> polymod_step d 0 = 0 -> d = 0.
Proof.
  intros Hd H. rewrite polymod_step_split, Z.lxor_0_r in H.
  set (mix := fold_left _ _ 0) in H.
  assert (0 <= Z.shiftr d 25 < 32) as Hb.
  { rewrite Z.shiftr_div_pow2 by lia.
    split; [apply Z.div_pos; lia|].
    apply Z.div_lt_upper_bound; lia. }
  assert (Z.land mix 31 = 0) as Hlow.
  { apply (f_equal (fun x => Z.land x 31)) in H.
    rewrite land_lxor_l, Z.land_0_l in H.
    replace (Z.land (Z.shiftl (Z.land d 33554431) 5) 31) with 0 in H.
    - now rewrite Z.lxor_0_l in H.
    - symmetry. change 31 with (Z.ones 5). rewrite Z.land_ones by lia.
      rewrite Z.shiftl_mul_pow2 by lia. apply Z.mod_mul. lia. }
  apply gen_low_bits_independent in Hlow; [|exact Hb].
  subst mix. rewrite Hlow in H. simpl in H.
  change (gen_select 0 0) with 0 in H. change (gen_select 0 1) with 0 in H.
  change (gen_select 0 2) with 0 in H. change (gen_select 0 3) with 0 in H.
  change (gen_select 0 4) with 0 in H. simpl in H. rewrite Z.lxor_0_r in H.
  rewrite Z.shiftl_mul_pow2 in H by lia.
  change 33554431 with (Z.ones 25) in H. rewrite Z.land_ones in H by lia.
  rewrite Z.shiftr_div_pow2 in Hlow by lia.
  pose proof (Z.div_mod d (2 ^ 25) ltac:(lia)). lia.
Qed.

(** Running the loop from two states on the same values: the XOR of the
    results is the XOR of the states, pushed through as many turns on
    input 0. *)
Lemma fold_polymod_diff (vs : list Z) c1 c2 :
  Z.lxor (fold_left polymod_step vs c1) (fold_left polymod_step vs c2) =
  Nat.iter (length vs) (fun d => polymod_step d 0) (Z.lxor c1 c2).
Proof.
  revert c1 c2. induction vs as [|v vs IH]; intros c1 c2; [reflexivity|].
  simpl fold_left. rewrite IH.
  rewrite <- polymod_step_lxor, Z.lxor_nilpotent.
  change (length (v :: vs)) with (S (length vs)).
  now rewrite Nat.iter_succ_r.
Qed.

Lemma iter_step_nonzero n d :
  0 <= d < 2 ^ 30 -> d <> 0 ->
  0 <= Nat.iter n (fun d => polymod_step d 0) d < 2 ^ 30 /\
  Nat.iter n (fun d => polymod_step d 0) d <> 0.
Proof.
  intros Hd Hne. induction n as [|n [IHr IHne]]; [now split|].
  simpl. split; [apply polymod_step_range; lia|].
  intros H. apply IHne. now apply polymod_step_kernel.
Qed.

(** Replacing one value by a different one changes the remainder. *)
Lemma polymod_single_change (pre post : list Z) a v :
  0 <= a < 2 ^ 30 -> 0 <= v < 2 ^ 30 -> a <> v ->
  bech32_polymod (pre ++ a :: post) <> bech32_polymod (pre ++ v :: post).
Proof.
  intros Ha Hv Hav Heq. unfold bech32_polymod in Heq.
  rewrite !fold_left_app in Heq. simpl in Heq.
  apply Z.lxor_eq_0_iff in Heq. rewrite fold_polymod_diff in Heq.
  set (c := fold_left polymod_step pre 1) in Heq.
  replace (Z.lxor (polymod_step c a) (polymod_step c v))
    with (Z.lxor a v) in Heq.
  - destruct (iter_step_nonzero (length post) (Z.lxor a v)) as [_ Hne]; auto.
    + apply lxor_below_pow2; lia.
    + now rewrite Z.lxor_eq_0_iff.
  - rewrite <- polymod_step_lxor, Z.lxor_nilpotent.
    rewrite polymod_step_split. simpl.
    change (gen_select (Z.shiftr 0 25) 0) with 0.
    change (gen_select (Z.shiftr 0 25) 1) with 0.
    change (gen_select (Z.shiftr 0 25) 2) with 0.
    change (gen_select (Z.shiftr 0 25) 3) with 0.
    change (gen_select (Z.shiftr 0 25) 4) with 0.
    simpl. now rewrite Z.lxor_0_r.
Qed.

End Polymod.

Section Checksum.

Lemma xor_if_bit_gen b i st :
  0 <= i ->
  Reference.xor_if_bit b i (nth (Z.to_nat i) GEN 0) st = Z.lxor st (gen_select b i).
Proof.
  intros Hi. unfold Reference.xor_if_bit. rewrite gen_select_testbit by lia.
  destruct (Z.testbit b i); [reflexivity | now rewrite Z.lxor_0_r].
Qed.

Lemma reference_step_eq state v : Reference.step state v = polymod_step state v.
Proof.
  unfold Reference.step, polymod_step.
  rewrite (xor_if_bit_gen _ 0), (xor_if_bit_gen _ 1), (xor_if_bit_gen _ 2),
    (xor_if_bit_gen _ 3), (xor_if_bit_gen _ 4) by lia.
  reflexivity.
Qed.

Lemma reference_polymod_eq values : Reference.polymod values = bech32_polymod values.
Proof.
  unfold Reference.polymod, bech32_polymod. generalize 1.
  induction values as [|v vs IH]; intros c; [reflexivity|].
  simpl. rewrite reference_step_eq. apply IH.
Qed.

Lemma reference_expand_eq hrp : Reference.expand hrp = bech32_hrp_expand hrp.
Proof.
  unfold Reference.expand, bech32_hrp_expand. now rewrite !map_map.
Qed.

(** The six symbols read off a remainder [p]. *)
Lemma create_checksum_symbols hrp data :
  bech32_create_checksum hrp data =
  let p := Z.lxor (bech32_polymod ((bech32_hrp_expand hrp ++ data)
                                     ++ [0; 0; 0; 0; 0; 0])) 1 in
  [ Z.land (Z.shiftr p 25) 31; Z.land (Z.shiftr p 20) 31;
    Z.land (Z.shiftr p 15) 31; Z.land (Z.shiftr p 10) 31;
    Z.land (Z.shiftr p 5) 31;  Z.land (Z.shiftr p 0) 31 ].
Proof. reflexivity. Qed.

Lemma symbol_range p k : 0 <= Z.land (Z.shiftr p k) 31 <= 31.
Proof. apply (land_mask_range _ 5). lia. Qed.

(** The remainder after the six zero values is a 30-bit number. *)
Lemma polymod_padded_range values :
  0 <= bech32_polymod (values ++ [0; 0; 0; 0; 0; 0]) < 2 ^ 30.
Proof.
  unfold bech32_polymod. rewrite fold_left_app. simpl.
  apply polymod_step_range. lia.
Qed.

(** Six 5-bit symbols hold a 30-bit number exactly. *)
Lemma symbols_value p :
  0 <= p < 2 ^ 30 ->
  p = Z.land (Z.shiftr p 25) 31 * 2 ^ 25 + Z.land (Z.shiftr p 20) 31 * 2 ^ 20
      + Z.land (Z.shiftr p 15) 31 * 2 ^ 15 + Z.land (Z.shiftr p 10) 31 * 2 ^ 10
      + Z.land (Z.shiftr p 5) 31 * 2 ^ 5 + Z.land (Z.shiftr p 0) 31.
Proof.
  intros Hp. change 31 with (Z.ones 5).
  rewrite !Z.land_ones, !Z.shiftr_div_pow2 by lia.
  change (2 ^ 0) with 1. change (2 ^ 5) with 32. change (2 ^ 10) with 1024.
  change (2 ^ 15) with 32768. change (2 ^ 20) with 1048576.
  change (2 ^ 25) with 33554432. change (2 ^ 30) with 1073741824 in Hp.
  Z.div_mod_to_equations. lia.
Qed.

Lemma hrp_expand_range hrp :
  is_ascii hrp -> Forall (fun v => 0 <= v <= 31) (bech32_hrp_expand hrp).
Proof.
  unfold is_ascii, bech32_hrp_expand. intros H.
  apply Forall_app. split; [|apply Forall_cons; split; [lia|]].
  - apply Forall_map. eapply Forall_impl; [exact H|]. simpl. intros c Hc.
    assert (0 <= ord c) by (unfold ord; lia).
    rewrite Z.shiftr_div_pow2 by lia. change (2 ^ 5) with 32.
    Z.div_mod_to_equations. lia.
  - apply Forall_map. apply Forall_forall. intros c _. simpl.
    apply (land_mask_range _ 5). lia.
Qed.

End Checksum.

(** C1.  [bech32_create_checksum] returns exactly six symbols, each in
    [0,31], and they are the symbols of the reference procedure of the
    specification (prefix expansion, payload, six zero values, the polymod
    recurrence from state 1 with the five generator constants, XOR with 1,
    six 5-bit symbols most significant first).  This holds for every prefix
    and payload, so in particular for ASCII prefixes and 5-bit payloads, for
    which the remainder is moreover a 30-bit number that the six symbols
    hold exactly. *)
Theorem bech32_create_checksum_reference (hrp : string) (data : list Z) :
  is_ascii hrp -> fits 5 data ->
  length (bech32_create_checksum hrp data) = 6%nat /\
  Forall (fun s => 0 <= s <= 31) (bech32_create_checksum hrp data) /\
  bech32_create_checksum hrp data = Reference.checksum hrp data /\
  digits_value 5 (bech32_create_checksum hrp data) =
    Z.lxor (Reference.polymod (Reference.expand hrp ++ data ++ [0; 0; 0; 0; 0; 0])) 1 /\
  Forall (fun v => 0 <= v <= 31) (bech32_hrp_expand hrp ++ data).
Proof.
  intros Hascii Hdata. split; [reflexivity|]. split; [|split; [|split]]; cycle 3.
  - apply Forall_app. split; [apply hrp_expand_range, Hascii|].
    eapply Forall_impl; [exact Hdata|]. simpl. intros v Hv.
    change (2 ^ 5) with 32 in Hv. lia.
  - rewrite create_checksum_symbols. cbv zeta.
    repeat (apply Forall_cons; split; [apply symbol_range|]). apply Forall_nil; exact I.
  - rewrite create_checksum_symbols. unfold Reference.checksum.
    now rewrite reference_polymod_eq, reference_expand_eq.
  - rewrite reference_polymod_eq, reference_expand_eq, app_assoc.
    rewrite create_checksum_symbols. cbv zeta.
    set (p := Z.lxor _ 1).
    assert (0 <= p < 2 ^ 30) as Hp.
    { apply lxor_below_pow2; [lia | apply polymod_padded_range | lia]. }
    rewrite (symbols_value p Hp) at 7.
    unfold digits_value. simpl fold_left.
    change (2 ^ 25) with (2 ^ 5 * 2 ^ 5 * 2 ^ 5 * 2 ^ 5 * 2 ^ 5).
    change (2 ^ 20) with (2 ^ 5 * 2 ^ 5 * 2 ^ 5 * 2 ^ 5).
    change (2 ^ 15) with (2 ^ 5 * 2 ^ 5 * 2 ^ 5).
    change (2 ^ 10) with (2 ^ 5 * 2 ^ 5).
    ring.
Qed.

Lemma bech32_create_checksum_reference_witness :
  is_ascii "addr" /\ fits 5 [3; 14; 31] /\
  bech32_create_checksum "addr" [3; 14; 31] = Reference.checksum "addr" [3; 14; 31].
Proof.
  assert (is_ascii "addr") as Ha
    by (unfold is_ascii; simpl; repeat constructor).
  assert (fits 5 [3; 14; 31]) as Hd
    by (unfold fits; repeat constructor; simpl; lia).
  split; [exact Ha|]. split; [exact Hd|].
  exact (proj1 (proj2 (proj2 (bech32_create_checksum_reference "addr" [3; 14; 31] Ha Hd)))).
Defined.

(** C7.  Replacing one payload symbol by a different 5-bit value always
    changes the checksum: for every ASCII prefix, every payload of 5-bit
    symbols, every index [i] into it and every [v] in [0,31] other than the
    symbol at [i], the checksum of the mutated payload differs from the
    checksum of the original one. *)
Theorem checksum_detects_single_mutation
    (hrp : string) (data : list Z) (i : nat) (a v : Z) :
  is_ascii hrp -> fits 5 data ->
  data !! i = Some a -> 0 <= v <= 31 -> v <> a ->
  bech32_create_checksum hrp (<[i:=v]> data) <> bech32_create_checksum hrp data.
Proof.
  intros _ Hdata Hi Hv Hva Heq.
  assert (0 <= a < 2 ^ 5) as Ha by exact (Forall_lookup_1 _ _ _ _ Hdata Hi).
  change (2 ^ 5) with 32 in Ha.
  assert (i < length data)%nat as Hlen by (eapply lookup_lt_Some; eauto).
  rewrite insert_take_drop in Heq by exact Hlen.
  rewrite <- (take_drop_middle data i a Hi) in Heq at 3.
  rewrite !create_checksum_symbols in Heq. cbv zeta in Heq.
  set (pre := bech32_hrp_expand hrp ++ take i data).
  set (post := drop (S i) data ++ [0; 0; 0; 0; 0; 0]).
  replace ((bech32_hrp_expand hrp ++ take i data ++ v :: drop (S i) data)
             ++ [0; 0; 0; 0; 0; 0]) with (pre ++ v :: post) in Heq
    by (subst pre post; now rewrite <- !app_assoc).
  replace ((bech32_hrp_expand hrp ++ take i data ++ a :: drop (S i) data)
             ++ [0; 0; 0; 0; 0; 0]) with (pre ++ a :: post) in Heq
    by (subst pre post; now rewrite <- !app_assoc).
  assert (forall x, 0 <= bech32_polymod (pre ++ x :: post) < 2 ^ 30) as Hr.
  { intros x. subst post. rewrite app_comm_cons, app_assoc.
    apply polymod_padded_range. }
  set (pv := Z.lxor (bech32_polymod (pre ++ v :: post)) 1) in Heq.
  set (pa := Z.lxor (bech32_polymod (pre ++ a :: post)) 1) in Heq.
  assert (0 <= pv < 2 ^ 30) as Hpv
    by (apply lxor_below_pow2; [lia | apply Hr | lia]).
  assert (0 <= pa < 2 ^ 30) as Hpa
    by (apply lxor_below_pow2; [lia | apply Hr | lia]).
  assert (pv = pa) as Hp.
  { rewrite (symbols_value pv Hpv), (symbols_value pa Hpa).
    injection Heq as -> -> -> -> -> ->. reflexivity. }
  subst pv pa.
  apply (f_equal (fun x => Z.lxor x 1)) in Hp.
  rewrite !Z.lxor_assoc, Z.lxor_nilpotent, !Z.lxor_0_r in Hp.
  revert Hp. apply not_eq_sym.
  apply polymod_single_change; lia.
Qed.

Lemma checksum_detects_single_mutation_witness :
  bech32_create_checksum "addr" (<[1%nat:=15]> [3; 14; 31]) <>
  bech32_create_checksum "addr" [3; 14; 31].
Proof.
  apply (checksum_detects_single_mutation "addr" [3; 14; 31] 1 14 15).
  - unfold is_ascii; simpl; repeat constructor.
  - unfold fits; repeat constructor; simpl; lia.
  - reflexivity.
  - lia.
  - lia.
Defined.

(** ** The bit-width converter *)

Section ShiftFacts.

Lemma py_lshift_ok a n : 0 <= n -> py_lshift a n = Return (a * 2 ^ n).
Proof.
  intros Hn. unfold py_lshift.
  destruct (Z.ltb_spec n 0); [lia|]. now rewrite Z.shiftl_mul_pow2.
Qed.

Lemma py_rshift_ok a n : 0 <= n -> py_rshift a n = Return (a / 2 ^ n).
Proof.
  intros Hn. unfold py_rshift.
  destruct (Z.ltb_spec n 0); [lia|]. now rewrite Z.shiftr_div_pow2.
Qed.

Lemma py_lshift_returns a n r : py_lshift a n = Return r -> 0 <= n /\ r = a * 2 ^ n.
Proof.
  unfold py_lshift. destruct (Z.ltb_spec n 0); [discriminate|].
  intros [= <-]. now rewrite Z.shiftl_mul_pow2.
Qed.

Lemma py_lshift_neg a n : n < 0 -> py_lshift a n = Raise ValueError.
Proof. intros Hn. unfold py_lshift. now destruct (Z.ltb_spec n 0); [|lia]. Qed.

(** The padding chunk: the [b] buffered bits, moved to the top of a
    [t]-bit symbol. *)
Lemma padded_chunk n k b t :
  0 <= b -> b <= k -> b <= t ->
  ((n mod 2 ^ k) * 2 ^ (t - b)) mod 2 ^ t = (n mod 2 ^ b) * 2 ^ (t - b).
Proof.
  intros Hb Hk Ht. apply Z.bits_inj'. intros i Hi.
  destruct (Z.lt_ge_cases i t) as [Hit|Hit].
  - rewrite Z.mod_pow2_bits_low by lia.
    rewrite !Z.mul_pow2_bits by lia.
    destruct (Z.lt_ge_cases i (t - b)).
    + now rewrite !Z.testbit_neg_r by lia.
    + now rewrite !Z.mod_pow2_bits_low by lia.
  - rewrite Z.mod_pow2_bits_high by lia.
    rewrite Z.mul_pow2_bits by lia.
    now rewrite Z.mod_pow2_bits_high by lia.
Qed.

End ShiftFacts.

Section Digits.

Variable w : Z.
Hypothesis Hw : 0 <= w.

Lemma digits_value_snoc l d : digits_value w (l ++ [d]) = digits_value w l * 2 ^ w + d.
Proof. unfold digits_value. now rewrite fold_left_app. Qed.

(** Digits of the same number: equally long lists of [w]-bit digits with
    the same value are the same list. *)
Lemma digits_value_inj l1 l2 :
  fits w l1 -> fits w l2 -> length l1 = length l2 ->
  digits_value w l1 = digits_value w l2 -> l1 = l2.
Proof.
  revert l2. induction l1 as [|d1 l1 IH] using rev_ind; intros l2 H1 H2 Hlen Hval.
  - destruct l2; [reflexivity | discriminate].
  - destruct l2 as [|d2 l2 _] using rev_ind.
    { rewrite length_app in Hlen. simpl in Hlen. lia. }
    rewrite !length_app in Hlen. simpl in Hlen.
    apply Forall_app in H1 as [H1 Hd1]. apply Forall_inv in Hd1.
    apply Forall_app in H2 as [H2 Hd2]. apply Forall_inv in Hd2.
    rewrite !digits_value_snoc in Hval.
    pose proof (pow2_pos w Hw) as Hp.
    assert (digits_value w l1 = digits_value w l2) as Hv.
    { apply (f_equal (fun x => x / 2 ^ w)) in Hval.
      now rewrite !Z.div_add_l, !(Z.div_small _ (2 ^ w)), !Z.add_0_r in Hval by lia. }
    assert (d1 = d2) as -> by lia.
    f_equal. apply IH; auto. lia.
Qed.

End Digits.

Section WhileLoop.

Variables tobits maxv acc : Z.

(** Hoare-style rule for the [while] loop with [0 < tobits]: it returns,
    with fewer than [tobits] bits left, and keeps any property that one
    turn keeps. *)
Lemma while_emit_inv (P : Z -> list Z -> Prop) (fuel : nat) :
  0 < tobits ->
  (forall b r, 0 <= b - tobits -> P b r ->
     P (b - tobits) (r ++ [Z.land (Z.shiftr acc (b - tobits)) maxv])) ->
  forall bits ret,
    0 <= bits -> (Z.to_nat bits <= fuel)%nat -> P bits ret ->
    exists b' r', while_emit fuel tobits maxv acc bits ret = Return (b', r')
                  /\ 0 <= b' < tobits /\ P b' r'.
Proof.
  intros Ht Hturn. induction fuel as [|fuel IH]; intros bits ret Hb Hfuel HP;
    simpl; destruct (Z.ltb_spec bits tobits) as [Hlt|Hge].
  - exists bits, ret. auto with lia.
  - lia.
  - exists bits, ret. auto with lia.
  - unfold py_rshift. destruct (Z.ltb_spec (bits - tobits) 0); [lia|]. simpl.
    apply IH; [lia | lia | apply Hturn; [lia | exact HP]].
Qed.

(** Whatever the widths, a symbol the loop appends went through the
    mask. *)
Lemma while_emit_Forall (Q : Z -> Prop) (fuel : nat) :
  (forall x, Q (Z.land x maxv)) ->
  forall bits ret b' r',
    while_emit fuel tobits maxv acc bits ret = Return (b', r') ->
    Forall Q ret -> Forall Q r'.
Proof.
  intros HQ. induction fuel as [|fuel IH]; intros bits ret b' r';
    simpl; destruct (bits <? tobits); try discriminate.
  - intros [= _ <-]. auto.
  - intros [= _ <-]. auto.
  - destruct (py_rshift acc (bits - tobits)) as [chunk| |]; try discriminate.
    simpl. intros Hrun Hret. eapply IH; [exact Hrun|].
    apply Forall_app. split; [exact Hret|]. apply Forall_cons. split; [apply HQ | apply Forall_nil; exact I].
Qed.

(** With [tobits <= 0] a loop that is entered is never left. *)
Lemma while_emit_diverges (fuel : nat) bits ret :
  tobits <= 0 -> tobits <= bits ->
  while_emit fuel tobits maxv acc bits ret = Diverge.
Proof.
  intros Ht. revert bits ret. induction fuel as [|fuel IH]; intros bits ret Hb;
    simpl; destruct (Z.ltb_spec bits tobits); try lia; [reflexivity|].
  unfold py_rshift. destruct (Z.ltb_spec (bits - tobits) 0); [lia|]. simpl.
  apply IH. lia.
Qed.

(** The bounded loop of the model and the runs of the Python loop. *)
Lemma while_emit_exec (fuel : nat) : forall bits ret st,
  while_emit fuel tobits maxv acc bits ret = Return st ->
  while_exec tobits maxv acc (bits, ret) st.
Proof.
  induction fuel as [|fuel IH]; intros bits ret st; simpl;
    destruct (Z.ltb_spec bits tobits) as [Hlt|Hge]; try discriminate.
  - intros [= <-]. now constructor.
  - intros [= <-]. now constructor.
  - unfold py_rshift. destruct (Z.ltb_spec (bits - tobits) 0); [lia|]. simpl.
    intros Hrun. apply while_turn; [exact Hge | now apply IH].
Qed.

Lemma while_exec_det st st1 :
  while_exec tobits maxv acc st st1 ->
  forall st2, while_exec tobits maxv acc st st2 -> st1 = st2.
Proof.
  induction 1 as [bits ret Hlt | bits ret st1 Hge _ IH]; intros st2 H2;
    inversion H2; subst; try lia; [reflexivity | now apply IH].
Qed.

Lemma while_exec_turn_width st st' :
  while_exec tobits maxv acc st st' -> st'.1 < tobits /\ (st = st' \/ 0 < tobits).
Proof.
  induction 1 as [bits ret Hlt | bits ret st1 Hge _ [IHb IHw]]; simpl in *.
  - auto.
  - split; [exact IHb|]. right.
    destruct IHw as [<-|?]; [simpl in IHb; lia | assumption].
Qed.

Lemma while_emit_no_raise (fuel : nat) e : forall bits ret,
  while_emit fuel tobits maxv acc bits ret <> Raise e.
Proof.
  induction fuel as [|fuel IH]; intros bits ret;
    simpl; destruct (Z.ltb_spec bits tobits); try discriminate.
  unfold py_rshift. destruct (Z.ltb_spec (bits - tobits) 0); [lia|]. simpl.
  apply IH.
Qed.

(** [emit_chunks] returns the exit state of the run that ends, when there is
    one; it diverges exactly when there is none; it never raises. *)
Lemma emit_chunks_exec bits ret :
  (forall st, emit_chunks tobits maxv acc bits ret = Return st <->
              while_exec tobits maxv acc (bits, ret) st) /\
  (emit_chunks tobits maxv acc bits ret = Diverge <->
   forall st, ~ while_exec tobits maxv acc (bits, ret) st) /\
  (forall e, emit_chunks tobits maxv acc bits ret <> Raise e).
Proof.
  unfold emit_chunks.
  assert (forall st, while_exec tobits maxv acc (bits, ret) st ->
                     while_emit (Z.to_nat bits) tobits maxv acc bits ret = Return st)
    as Hcomplete.
  { intros st Hrun.
    destruct (while_exec_turn_width _ _ Hrun) as [Hb [<-|Ht]].
    - simpl in Hb. destruct (Z.to_nat bits); simpl;
        destruct (Z.ltb_spec bits tobits); (reflexivity || lia).
    - destruct (Z.lt_ge_cases bits tobits) as [Hlt|Hge].
      + inversion Hrun; subst; [|lia].
        destruct (Z.to_nat bits); simpl;
          destruct (Z.ltb_spec bits tobits); (reflexivity || lia).
      + destruct (while_emit_inv (fun _ _ => True) (Z.to_nat bits) Ht
                    ltac:(auto) bits ret ltac:(lia) ltac:(lia) I)
          as (b' & r' & Hret & _).
        rewrite Hret. f_equal.
        exact (while_exec_det _ _ (while_emit_exec _ _ _ _ Hret) _ Hrun). }
  split; [|split].
  - intros st. split; [apply while_emit_exec | apply Hcomplete].
  - split.
    + intros Hdiv st Hrun. apply Hcomplete in Hrun. congruence.
    + intros Hnone.
      destruct (while_emit (Z.to_nat bits) tobits maxv acc bits ret) as [st|e|] eqn:Hw.
      * apply while_emit_exec in Hw. now apply Hnone in Hw.
      * now apply while_emit_no_raise in Hw.
      * reflexivity.
  - intros e. apply while_emit_no_raise.
Qed.

End WhileLoop.

Section ConvertLoop.

Variables frombits tobits : Z.
Hypothesis Hf : 0 <= frombits.
Hypothesis Ht : 0 < tobits.

Local Abbreviation maxv := (2 ^ tobits - 1).
Local Abbreviation width := (frombits + tobits - 1).
Local Abbreviation max_acc := (2 ^ width - 1).
Local Abbreviation step := (convert_step frombits tobits maxv max_acc).
Local Abbreviation loop := (convert_loop frombits tobits maxv max_acc).

Local Abbreviation loop_inv := (loop_inv frombits tobits).

Lemma loop_inv_init : loop_inv [] (0, 0, []).
Proof.
  unfold loop_inv, digits_value. simpl.
  repeat split; try lia. apply Forall_nil; exact I.
Qed.

Lemma convert_step_inv seen st v :
  loop_inv seen st -> 0 <= v < 2 ^ frombits ->
  exists st', step st v = Return st' /\ loop_inv (seen ++ [v]) st'.
Proof.
  destruct st as [[acc bits] ret]. intros (Hb & Hacc & Hval & Hlen & Hfit) Hv.
  unfold convert_step. rewrite py_lshift_ok by lia. simpl obind.
  rewrite <- Z.shiftl_mul_pow2, lor_shiftl_add, land_mask by lia.
  set (n := digits_value frombits seen) in *.
  set (n' := n * 2 ^ frombits + v).
  assert (0 < 2 ^ frombits) as Hpf by (apply pow2_pos; lia).
  assert ((acc * 2 ^ frombits + v) mod 2 ^ width = n' mod 2 ^ width) as ->.
  { subst acc n'. rewrite <- Zplus_mod_idemp_l, Zmult_mod_idemp_l.
    now rewrite Zplus_mod_idemp_l. }
  unfold emit_chunks.
  destruct (while_emit_inv tobits maxv (n' mod 2 ^ width)
              (fun b r => b <= bits + frombits /\
                          digits_value tobits r = n' / 2 ^ b /\
                          Z.of_nat (length r) * tobits + b
                            = Z.of_nat (length (seen ++ [v])) * frombits /\
                          fits tobits r)
              (Z.to_nat (bits + frombits)) Ht) with (bits := bits + frombits) (ret := ret)
    as (b' & r' & -> & Hb' & _ & Hval' & Hlen' & Hfit').
  - intros b r Hbt (Hble & Hrv & Hrl & Hrf). split; [lia|]. split; [|split].
    + rewrite digits_value_snoc by lia. rewrite Hrv.
      rewrite land_mask, Z.shiftr_div_pow2 by lia.
      rewrite slice_of_masked by lia.
      replace b with ((b - tobits) + tobits) at 1 by lia.
      rewrite div_pow2_add by lia.
      pose proof (Z.div_mod (n' / 2 ^ (b - tobits)) (2 ^ tobits)) as Hdm.
      pose proof (pow2_pos tobits ltac:(lia)). lia.
    + rewrite length_app. simpl. lia.
    + apply Forall_app. split; [exact Hrf|].
      apply Forall_cons. split; [|apply Forall_nil; exact I].
      pose proof (land_mask_range (Z.shiftr (n' mod 2 ^ width) (b - tobits)) tobits).
      lia.
  - lia.
  - lia.
  - split; [lia|]. split; [|split; [|exact Hfit]].
    + rewrite Hval. rewrite (Z.add_comm bits), div_pow2_add by lia.
      f_equal. subst n'. rewrite Z.div_add_l, Z.div_small by lia. lia.
    + rewrite length_app. simpl. lia.
  - eexists. split; [reflexivity|]. simpl.
    rewrite digits_value_snoc by lia. fold n n'. auto.
Qed.

Lemma convert_loop_inv data : forall seen st,
  loop_inv seen st -> fits frombits data ->
  exists st', loop st data = Return st' /\ loop_inv (seen ++ data) st'.
Proof.
  induction data as [|v data IH]; intros seen st Hinv Hdata.
  - exists st. rewrite app_nil_r. now split.
  - apply Forall_cons in Hdata as [Hv Hdata].
    destruct (convert_step_inv seen st v Hinv Hv) as (st1 & Hstep & Hinv1).
    simpl. rewrite Hstep. simpl.
    destruct (IH (seen ++ [v]) st1 Hinv1 Hdata) as (st' & Hloop & Hinv').
    exists st'. split; [exact Hloop|]. now rewrite <- app_assoc in Hinv'.
Qed.

End ConvertLoop.


Section Convertbits.

Variables frombits tobits : Z.
Hypothesis Hf : 0 <= frombits.
Hypothesis Ht : 0 < tobits.

Lemma convertbits_unfold data pad :
  convertbits data frombits tobits pad =
  do st <- convert_loop frombits tobits (2 ^ tobits - 1)
             (2 ^ (frombits + tobits - 1) - 1) (0, 0, []) data;
  let '(acc, bits, ret) := st in
  if pad then
    if bits =? 0 then Return (Some ret)
    else do sh <- py_lshift acc (tobits - bits);
         Return (Some (ret ++ [Z.land sh (2 ^ tobits - 1)]))
  else if bits >=? frombits then Return None
  else do sh <- py_lshift acc (tobits - bits);
       if Z.land sh (2 ^ tobits - 1) =? 0 then Return (Some ret) else Return None.
Proof.
  unfold convertbits. rewrite !py_lshift_ok by lia. simpl obind.
  now rewrite !Z.mul_1_l.
Qed.

Lemma convert_loop_spec data :
  fits frombits data ->
  exists acc bits ret,
    convert_loop frombits tobits (2 ^ tobits - 1)
      (2 ^ (frombits + tobits - 1) - 1) (0, 0, []) data = Return (acc, bits, ret)
    /\ loop_inv frombits tobits data (acc, bits, ret).
Proof.
  intros Hdata.
  destruct (convert_loop_inv frombits tobits Hf Ht data [] (0, 0, [])
              (loop_inv_init frombits tobits Ht) Hdata) as ([[acc bits] ret] & Hloop & Hinv).
  exists acc, bits, ret. auto.
Qed.

(** With padding: the output is the bit stream of the input followed by
    [k < tobits] zero bits. *)
Lemma convertbits_pad data :
  fits frombits data ->
  exists out k,
    convertbits data frombits tobits true = Return (Some out) /\
    0 <= k < tobits /\
    Z.of_nat (length out) * tobits = Z.of_nat (length data) * frombits + k /\
    digits_value tobits out = digits_value frombits data * 2 ^ k /\
    fits tobits out.
Proof.
  intros Hdata.
  destruct (convert_loop_spec data Hdata)
    as (acc & bits & ret & Hloop & Hb & Hacc & Hval & Hlen & Hfit).
  rewrite convertbits_unfold, Hloop. simpl obind.
  set (n := digits_value frombits data) in *.
  destruct (Z.eqb_spec bits 0) as [->|Hnz].
  - exists ret, 0. rewrite Z.div_1_r in Hval. simpl (2 ^ 0).
    repeat split; auto; lia.
  - assert (1 <= frombits) as Hf1 by nia.
    rewrite py_lshift_ok by lia. simpl obind.
    rewrite land_mask by lia. subst acc.
    rewrite padded_chunk by lia.
    exists (ret ++ [n mod 2 ^ bits * 2 ^ (tobits - bits)]), (tobits - bits).
    assert (0 < 2 ^ bits) as Hpb by (apply pow2_pos; lia).
    assert (0 < 2 ^ (tobits - bits)) as Hpk by (apply pow2_pos; lia).
    assert (2 ^ tobits = 2 ^ (tobits - bits) * 2 ^ bits) as Hpt
      by (rewrite <- Z.pow_add_r by lia; f_equal; lia).
    pose proof (Z.mod_pos_bound n (2 ^ bits) Hpb) as Hm.
    split; [reflexivity|]. split; [lia|]. split; [|split].
    + rewrite length_app. simpl. lia.
    + rewrite digits_value_snoc, Hval by lia.
      pose proof (Z.div_mod n (2 ^ bits) ltac:(lia)) as Hdm.
      rewrite Hpt. rewrite Hdm at 3. ring.
    + apply Forall_app. split; [exact Hfit|].
      apply Forall_cons. split; [|apply Forall_nil; exact I].
      rewrite Hpt. nia.
Qed.

(** Without padding: the buffered bits left over are the low
    [(length * frombits) mod tobits] bits of the input; the result is [None]
    when there are [frombits] of them or more, or when they are not all
    zero, and the bits above them otherwise. *)
Lemma convertbits_nopad data :
  fits frombits data ->
  let left := (Z.of_nat (length data) * frombits) mod tobits in
  let n := digits_value frombits data in
  exists acc ret,
    convert_loop frombits tobits (2 ^ tobits - 1)
      (2 ^ (frombits + tobits - 1) - 1) (0, 0, []) data = Return (acc, left, ret) /\
    digits_value tobits ret = n / 2 ^ left /\
    Z.of_nat (length ret) = (Z.of_nat (length data) * frombits) / tobits /\
    fits tobits ret /\
    (left < frombits ->
     Z.land (Z.shiftl acc (tobits - left)) (2 ^ tobits - 1)
       = (n mod 2 ^ left) * 2 ^ (tobits - left)) /\
    convertbits data frombits tobits false =
      if (frombits <=? left) || negb (n mod 2 ^ left =? 0)
      then Return None else Return (Some ret).
Proof.
  intros Hdata left n.
  destruct (convert_loop_spec data Hdata)
    as (acc & bits & ret & Hloop & Hb & Hacc & Hval & Hlen & Hfit).
  fold n in Hacc, Hval.
  assert (bits = left) as Hbl.
  { subst left. apply (Z.mod_unique _ _ (Z.of_nat (length ret))); lia. }
  assert (Z.of_nat (length ret) = (Z.of_nat (length data) * frombits) / tobits) as Hq.
  { apply (Z.div_unique _ _ _ bits); lia. }
  subst bits. exists acc, ret.
  assert (left < frombits ->
          Z.land (Z.shiftl acc (tobits - left)) (2 ^ tobits - 1)
            = (n mod 2 ^ left) * 2 ^ (tobits - left)) as Hchunk.
  { intros Hlt. rewrite Z.shiftl_mul_pow2, land_mask by lia.
    subst acc. apply padded_chunk; lia. }
  repeat (split; [assumption|]).
  rewrite convertbits_unfold, Hloop. simpl obind.
  rewrite Z.geb_leb.
  destruct (Z.leb_spec frombits left) as [Hge|Hlt]; [reflexivity|].
  simpl orb. rewrite py_lshift_ok by lia. simpl obind.
  rewrite <- Z.shiftl_mul_pow2 by lia. rewrite Hchunk by lia.
  assert (0 < 2 ^ (tobits - left)) as Hpk by (apply pow2_pos; lia).
  destruct (Z.eqb_spec (n mod 2 ^ left) 0) as [->|Hnz]; [reflexivity|].
  destruct (Z.eqb_spec (n mod 2 ^ left * 2 ^ (tobits - left)) 0); [nia|reflexivity].
Qed.

End Convertbits.

Section AnyInput.

Variables frombits tobits maxv max_acc : Z.

(** For inputs of any size: with sound widths the loop of [convertbits]
    returns. *)
Lemma convert_loop_returns data : forall acc bits ret,
  0 <= frombits -> 0 < tobits -> 0 <= bits < tobits ->
  exists acc' bits' ret',
    convert_loop frombits tobits maxv max_acc (acc, bits, ret) data
      = Return (acc', bits', ret') /\ 0 <= bits' < tobits.
Proof.
  induction data as [|v data IH]; intros acc bits ret Hf Ht Hb.
  - exists acc, bits, ret. now split.
  - simpl. rewrite py_lshift_ok by lia. simpl obind. unfold emit_chunks.
    destruct (while_emit_inv tobits maxv
                (Z.land (Z.lor (acc * 2 ^ frombits) v) max_acc)
                (fun _ _ => True) (Z.to_nat (bits + frombits)) Ht)
      with (bits := bits + frombits) (ret := ret)
      as (b' & r' & -> & Hb' & _); auto with lia.
    simpl. apply IH; assumption.
Qed.

(** Whatever the widths: every symbol of a returned state went through the
    mask. *)
Lemma convert_loop_Forall (Q : Z -> Prop) data : forall st st',
  (forall x, Q (Z.land x maxv)) ->
  convert_loop frombits tobits maxv max_acc st data = Return st' ->
  Forall Q st.2 -> Forall Q st'.2.
Proof.
  induction data as [|v data IH]; intros [[acc bits] ret] st' HQ.
  - simpl. now intros [= <-].
  - simpl. destruct (py_lshift acc frombits) as [sh| |]; try discriminate.
    simpl. unfold emit_chunks.
    destruct (while_emit _ _ _ _ _ _) as [[b1 r1]| |] eqn:Hw; try discriminate.
    simpl. intros Hloop Hret.
    apply (IH _ _ HQ Hloop). simpl.
    eapply while_emit_Forall; eauto.
Qed.

End AnyInput.

(** C2.  For every list [B] of bytes, regrouping to 5-bit symbols with
    padding and back to bytes without padding succeeds and gives [B] back.
    The side conditions hold for every such [B]: its bit length is a multiple
    of 8, and the 5-bit symbols are the bits of [B] followed by [k < 5]
    padding bits that are all zero. *)
Theorem convertbits_roundtrip (B : list Z) :
  fits 8 B ->
  exists (D : list Z) (k : Z),
    convertbits B 8 5 true = Return (Some D) /\
    convertbits D 5 8 false = Return (Some B) /\
    (Z.of_nat (length B) * 8) mod 8 = 0 /\
    0 <= k < 5 /\
    Z.of_nat (length D) * 5 = Z.of_nat (length B) * 8 + k /\
    digits_value 5 D = digits_value 8 B * 2 ^ k.
Proof.
  intros HB.
  destruct (convertbits_pad 8 5 ltac:(lia) ltac:(lia) B HB)
    as (D & k & Hfwd & Hk & Hlen & Hval & HD).
  exists D, k. split; [exact Hfwd|].
  split; [|split; [apply Z.mod_mul; lia | auto]].
  destruct (convertbits_nopad 5 8 ltac:(lia) ltac:(lia) D HD)
    as (acc & ret & _ & Hrval & Hrlen & Hrfit & _ & ->).
  assert ((Z.of_nat (length D) * 5) mod 8 = k) as Hleft.
  { symmetry. apply (Z.mod_unique _ _ (Z.of_nat (length B))); lia. }
  assert ((Z.of_nat (length D) * 5) / 8 = Z.of_nat (length B)) as Hquot.
  { symmetry. apply (Z.div_unique _ _ _ k); lia. }
  rewrite Hleft in *. rewrite Hquot in Hrlen. rewrite Hval in *.
  assert (0 < 2 ^ k) as Hpk by (apply pow2_pos; lia).
  rewrite Z.mod_mul by lia. rewrite Z.div_mul in Hrval by lia.
  destruct (Z.leb_spec 5 k); [lia|]. simpl.
  do 2 f_equal.
  apply (digits_value_inj 8); auto with lia.
Qed.

Lemma convertbits_roundtrip_witness :
  fits 8 [0x71; 0xab; 0xff] /\
  exists D, convertbits [0x71; 0xab; 0xff] 8 5 true = Return (Some D) /\
            convertbits D 5 8 false = Return (Some [0x71; 0xab; 0xff]).
Proof.
  assert (fits 8 [0x71; 0xab; 0xff]) as HB
    by (unfold fits; repeat constructor; simpl; lia).
  split; [exact HB|].
  destruct (convertbits_roundtrip [0x71; 0xab; 0xff] HB) as (D & k & H1 & H2 & _).
  exists D. split; assumption.
Defined.

(** C6.  For every input whose elements fit in [frombits] bits,
    [convertbits] without padding returns the sentinel [None] exactly when,
    after the whole input, the number of bits still buffered is at least
    [frombits] or those bits, shifted and masked as the code does, are not
    zero; it never raises, and otherwise it returns the converted sequence:
    the bits of the input above the buffered ones, [tobits] at a time. *)
Theorem convertbits_nopad_sentinel (data : list Z) (frombits tobits : Z) :
  0 <= frombits -> 0 < tobits -> fits frombits data ->
  exists acc bits ret,
    convert_loop frombits tobits (2 ^ tobits - 1)
      (2 ^ (frombits + tobits - 1) - 1) (0, 0, []) data = Return (acc, bits, ret) /\
    bits = (Z.of_nat (length data) * frombits) mod tobits /\
    (convertbits data frombits tobits false = Return None <->
     frombits <= bits \/
     Z.land (Z.shiftl acc (tobits - bits)) (2 ^ tobits - 1) <> 0) /\
    (convertbits data frombits tobits false <> Return None ->
     convertbits data frombits tobits false = Return (Some ret)) /\
    (bits < frombits ->
     (Z.land (Z.shiftl acc (tobits - bits)) (2 ^ tobits - 1) <> 0 <->
      digits_value frombits data mod 2 ^ bits <> 0)) /\
    digits_value tobits ret = digits_value frombits data / 2 ^ bits /\
    Z.of_nat (length ret) = (Z.of_nat (length data) * frombits) / tobits /\
    fits tobits ret.
Proof.
  intros Hf Ht Hdata.
  destruct (convertbits_nopad frombits tobits Hf Ht data Hdata)
    as (acc & ret & Hloop & Hval & Hlen & Hfit & Hchunk & Hres).
  set (bits := (Z.of_nat (length data) * frombits) mod tobits) in *.
  set (n := digits_value frombits data) in *.
  assert (0 <= bits < tobits) as Hb by (apply Z.mod_pos_bound; lia).
  assert (0 < 2 ^ (tobits - bits)) as Hpk by (apply pow2_pos; lia).
  assert (bits < frombits ->
          (Z.land (Z.shiftl acc (tobits - bits)) (2 ^ tobits - 1) <> 0 <->
           n mod 2 ^ bits <> 0)) as Hsem.
  { intros Hlt. rewrite (Hchunk Hlt). split; intros H; nia. }
  exists acc, bits, ret.
  split; [exact Hloop|]. split; [reflexivity|].
  split; [|split; [|split; [exact Hsem | auto]]].
  - rewrite Hres. destruct (Z.leb_spec frombits bits) as [Hge|Hlt]; simpl.
    + split; auto.
    + destruct (Z.eqb_spec (n mod 2 ^ bits) 0) as [Hz|Hnz]; simpl.
      * split; [discriminate|]. intros [?|Hne]; [lia|].
        apply Hsem in Hne; [contradiction | lia].
      * split; [|reflexivity]. intros _. right. apply Hsem; [lia | exact Hnz].
  - rewrite Hres. destruct (_ || _); [intros H; now contradict H | reflexivity].
Qed.

Lemma convertbits_nopad_sentinel_witness :
  fits 5 [31; 1] /\
  exists acc bits ret,
    convert_loop 5 8 (2 ^ 8 - 1) (2 ^ (5 + 8 - 1) - 1) (0, 0, []) [31; 1]
      = Return (acc, bits, ret) /\
    bits = (Z.of_nat (length [31; 1]) * 5) mod 8 /\
    (convertbits [31; 1] 5 8 false = Return None <->
     5 <= bits \/ Z.land (Z.shiftl acc (8 - bits)) (2 ^ 8 - 1) <> 0).
Proof.
  assert (fits 5 [31; 1]) as Hd by (unfold fits; repeat constructor; simpl; lia).
  split; [exact Hd|].
  destruct (convertbits_nopad_sentinel [31; 1] 5 8 ltac:(lia) ltac:(lia) Hd)
    as (acc & bits & ret & H1 & H2 & H3 & _).
  exists acc, bits, ret. repeat split; try assumption; apply H3.
Defined.



Section Padded.

(** Whatever the widths and the input: a result with padding is a list, and
    each of its elements went through the mask [2 ^ tobits - 1]. *)
Lemma convertbits_pad_masked data frombits tobits r :
  convertbits data frombits tobits true = Return r ->
  exists l, r = Some l /\ Forall (fun x => 0 <= x <= 2 ^ tobits - 1) l.
Proof.
  unfold convertbits.
  destruct (py_lshift 1 tobits) as [one| |] eqn:H1; try discriminate.
  apply py_lshift_returns in H1 as [Ht ->]. rewrite Z.mul_1_l. simpl obind.
  destruct (py_lshift 1 (frombits + tobits - 1)) as [one'| |]; try discriminate.
  simpl obind.
  destruct (convert_loop _ _ _ _ _ data) as [[[acc bits] ret]| |] eqn:Hloop;
    try discriminate.
  simpl obind.
  assert (forall x, 0 <= Z.land x (2 ^ tobits - 1) <= 2 ^ tobits - 1) as Hmask
    by (intros x; apply land_mask_range; lia).
  assert (Forall (fun x => 0 <= x <= 2 ^ tobits - 1) ret) as Hret.
  { apply (convert_loop_Forall _ _ _ _ _ data _ _ Hmask Hloop).
    apply Forall_nil; exact I. }
  destruct (bits =? 0).
  - intros [= <-]. eauto.
  - destruct (py_lshift acc (tobits - bits)) as [sh| |]; try discriminate.
    simpl. intros [= <-]. eexists. split; [reflexivity|].
    apply Forall_app. split; [exact Hret|].
    apply Forall_cons. split; [apply Hmask | apply Forall_nil; exact I].
Qed.

(** With sound widths the call returns, for inputs of any size. *)
Lemma convertbits_pad_total data frombits tobits :
  0 <= frombits -> 0 < tobits ->
  exists l, convertbits data frombits tobits true = Return (Some l).
Proof.
  intros Hf Ht. rewrite convertbits_unfold by lia.
  destruct (convert_loop_returns frombits tobits (2 ^ tobits - 1)
              (2 ^ (frombits + tobits - 1) - 1) data 0 0 [] Hf Ht ltac:(lia))
    as (acc & bits & ret & -> & Hb).
  simpl obind. destruct (bits =? 0); [eauto|].
  rewrite py_lshift_ok by lia. simpl. eauto.
Qed.

(** Outside the sound widths there is no result: a negative [tobits] makes
    [1 << tobits] raise, and with [tobits = 0] the [while] loop is entered
    at the first input value and never left. *)
Lemma convertbits_negative_width data frombits tobits pad :
  tobits < 0 -> convertbits data frombits tobits pad = Raise ValueError.
Proof. intros Ht. unfold convertbits. now rewrite py_lshift_neg. Qed.

Lemma convertbits_zero_width v data frombits pad :
  1 <= frombits -> convertbits (v :: data) frombits 0 pad = Diverge.
Proof.
  intros Hf. unfold convertbits. rewrite !py_lshift_ok by lia. simpl obind.
  simpl convert_loop. rewrite py_lshift_ok by lia. simpl obind.
  unfold emit_chunks. now rewrite while_emit_diverges by lia.
Qed.

Lemma convertbits_8_5 data :
  exists five, convertbits data 8 5 true = Return (Some five)
               /\ Forall (fun d => 0 <= d <= 31) five.
Proof.
  destruct (convertbits_pad_total data 8 5) as [five H]; [lia | lia |].
  destruct (convertbits_pad_masked _ _ _ _ H) as (l & [= <-] & Hl).
  exists five. split; [exact H | exact Hl].
Qed.

Lemma charset_get_ok d : 0 <= d <= 31 -> charset_get d = Return (charset_char d).
Proof.
  intros Hd.
  assert (forallb (fun d => match charset_get d with
                            | Return c => Ascii.eqb c (charset_char d)
                            | _ => false
                            end) (range 32) = true) as Hall
      by (vm_compute; reflexivity).
  assert (In d (range 32)) as Hin.
  { unfold range. apply in_map_iff. exists (Z.to_nat d).
    split; [lia|]. apply in_seq. lia. }
  pose proof (proj1 (forallb_forall _ _) Hall d Hin) as H. cbv beta in H.
  destruct (charset_get d) as [c| |]; try discriminate.
  apply Ascii.eqb_eq in H. now subst.
Qed.

Lemma charset_char_in d : 0 <= d <= 31 -> in_charset (charset_char d).
Proof.
  intros Hd. unfold in_charset, charset_char. apply nth_In.
  change (length (list_ascii_of_string BECH32_CHARSET)) with 32%nat. lia.
Qed.

Lemma charset_map_ok l :
  Forall (fun d => 0 <= d <= 31) l ->
  charset_map l = Return (string_of_list_ascii (map charset_char l)).
Proof.
  induction 1 as [|d l Hd _ IH]; [reflexivity|].
  simpl. rewrite charset_get_ok, IH by exact Hd. reflexivity.
Qed.

Lemma checksum_range hrp data :
  Forall (fun d => 0 <= d <= 31) (bech32_create_checksum hrp data).
Proof.
  rewrite create_checksum_symbols. cbv zeta.
  repeat (apply Forall_cons; split; [apply symbol_range|]). apply Forall_nil; exact I.
Qed.

Lemma bech32_encode_ok hrp data :
  Forall (fun d => 0 <= d <= 31) data ->
  bech32_encode hrp data =
  Return (hrp ++ "1"
          ++ string_of_list_ascii
               (map charset_char (data ++ bech32_create_checksum hrp data)))%string.
Proof.
  intros Hdata. unfold bech32_encode.
  rewrite charset_map_ok; [reflexivity|].
  apply Forall_app. split; [exact Hdata | apply checksum_range].
Qed.

Lemma script_hash_to_address_build script_hash network :
  script_hash_to_address script_hash network =
  build_address (if String.eqb network "mainnet" then 0x71 else 0x70)
                (if String.eqb network "mainnet" then "addr" else "addr_test")
                script_hash.
Proof.
  unfold script_hash_to_address, build_address, header_byte, prefix_of.
  now destruct (String.eqb network "mainnet").
Qed.

(** The encoder on a test vector of the Bech32 standard, and the addresses
    of the pool validator. *)
Example bech32_encode_a : bech32_encode "a" [] = Return "a12uel5l"%string.
Proof. vm_compute. reflexivity. Qed.

Example pool_addresses :
  script_hash_to_address POOL_SCRIPT_HASH "testnet"
    = Return "addr_test1wpe50xtefsc0cnlrgvwrenupr52mdlk435uh6t83eh3n5scjt5vpz"%string /\
  exists body, script_hash_to_address POOL_SCRIPT_HASH "mainnet"
                 = Return ("addr1" ++ body)%string.
Proof. split; [|eexists]; vm_compute; reflexivity. Qed.

End Padded.

(** ** The address builder *)

(** C10.  With padding, [convertbits] never returns [None], and every
    element of its result lies in [0, 2 ^ tobits - 1], for every input
    sequence and all widths; with sound widths ([0 <= frombits],
    [0 < tobits]) it does return.  Hence in [script_hash_to_address] the 5-bit
    data handed to [bech32_encode] is a list of values in [0,31], every index
    into the alphabet made there is in range, and the call returns. *)
Theorem convertbits_pad_in_range (data : list Z) (frombits tobits : Z) :
  (forall r, convertbits data frombits tobits true = Return r ->
             exists l, r = Some l /\ Forall (fun x => 0 <= x <= 2 ^ tobits - 1) l) /\
  (0 <= frombits -> 0 < tobits ->
   exists l, convertbits data frombits tobits true = Return (Some l)) /\
  (forall script_hash network hash_bytes,
     fromhex (replace_0x script_hash) = Return hash_bytes ->
     exists five_bit_data,
       convertbits (header_byte network ++ hash_bytes) 8 5 true
         = Return (Some five_bit_data) /\
       Forall (fun d => 0 <= d <= 31) five_bit_data /\
       Forall (fun d => charset_get d = Return (charset_char d))
         (five_bit_data ++ bech32_create_checksum (prefix_of network) five_bit_data) /\
       exists address, script_hash_to_address script_hash network = Return address).
Proof.
  split; [|split].
  - intros r. apply convertbits_pad_masked.
  - apply convertbits_pad_total.
  - intros script_hash network hash_bytes Hhex.
    destruct (convertbits_8_5 (header_byte network ++ hash_bytes)) as (five & Hc & Hr).
    exists five. split; [exact Hc|]. split; [exact Hr|]. split.
    + eapply Forall_impl; [|intros d; apply charset_get_ok].
      apply Forall_app. split; [exact Hr | apply checksum_range].
    + unfold script_hash_to_address. rewrite Hhex. simpl obind.
      rewrite Hc. simpl obind. rewrite bech32_encode_ok by exact Hr. eauto.
Qed.

Lemma convertbits_pad_in_range_witness :
  exists l, convertbits [300; -7; 0] 8 5 true = Return (Some l)
            /\ Forall (fun x => 0 <= x <= 2 ^ 5 - 1) l.
Proof.
  destruct (convertbits_pad_in_range [300; -7; 0] 8 5) as (Hmask & Htotal & _).
  destruct Htotal as [l Hl]; [lia | lia |].
  destruct (Hmask _ Hl) as (l' & [= <-] & Hrange).
  exists l. split; [exact Hl | exact Hrange].
Defined.

(** C3.  For every network selector and every hex script hash that decodes,
    the address returned is the prefix, the separator "1", and the characters
    of the payload symbols followed by the checksum symbols, each mapped
    through the alphabet; so it starts with "addr1" when the network is
    'mainnet' and with "addr_test1" otherwise, and every character after that
    separator belongs to the 32-character alphabet. *)
Theorem script_hash_to_address_format (script_hash network : string) (hash_bytes : list Z) :
  fromhex (replace_0x script_hash) = Return hash_bytes ->
  exists payload,
    convertbits (header_byte network ++ hash_bytes) 8 5 true = Return (Some payload) /\
    let prefix := prefix_of network in
    let body := string_of_list_ascii
                  (map charset_char (payload ++ bech32_create_checksum prefix payload)) in
    script_hash_to_address script_hash network = Return (prefix ++ "1" ++ body)%string /\
    Forall in_charset (list_ascii_of_string body) /\
    (network = "mainnet"%string ->
     script_hash_to_address script_hash network = Return ("addr1" ++ body)%string) /\
    (network <> "mainnet"%string ->
     script_hash_to_address script_hash network = Return ("addr_test1" ++ body)%string).
Proof.
  intros Hhex.
  destruct (convertbits_8_5 (header_byte network ++ hash_bytes)) as (payload & Hc & Hr).
  exists payload. split; [exact Hc|]. intros prefix body.
  assert (script_hash_to_address script_hash network
          = Return (prefix ++ "1" ++ body)%string) as Haddr.
  { unfold script_hash_to_address. rewrite Hhex. simpl obind.
    rewrite Hc. simpl obind. now rewrite bech32_encode_ok by exact Hr. }
  split; [exact Haddr|]. split; [|split].
  - subst body. rewrite list_ascii_of_string_of_list_ascii.
    apply Forall_map. eapply Forall_impl; [|intros d; apply charset_char_in].
    apply Forall_app. split; [exact Hr | apply checksum_range].
  - intros ->. exact Haddr.
  - intros Hne. rewrite Haddr. subst prefix. unfold prefix_of.
    destruct (String.eqb_spec network "mainnet"); [contradiction | reflexivity].
Qed.

Lemma script_hash_to_address_format_witness :
  exists body,
    script_hash_to_address "0x00ff" "mainnet" = Return ("addr1" ++ body)%string /\
    Forall in_charset (list_ascii_of_string body).
Proof.
  destruct (script_hash_to_address_format "0x00ff" "mainnet" [0; 255] eq_refl)
    as (payload & _ & _ & Hin & Hmain & _).
  eexists. split; [apply Hmain; reflexivity | exact Hin].
Defined.

(** C5.  [script_hash_to_address] prepends the header byte 0x71 and uses the
    prefix "addr" exactly when the network equals 'mainnet'; for every other
    value, unrecognized ones included, it prepends 0x70 and uses "addr_test":
    such a value is not rejected, the call behaves as for 'testnet'. *)
Theorem network_selects_header_and_prefix (script_hash network : string) :
  (network = "mainnet"%string ->
   header_byte network = [0x71] /\ prefix_of network = "addr"%string /\
   script_hash_to_address script_hash network = build_address 0x71 "addr" script_hash) /\
  (network <> "mainnet"%string ->
   header_byte network = [0x70] /\ prefix_of network = "addr_test"%string /\
   script_hash_to_address script_hash network
     = build_address 0x70 "addr_test" script_hash /\
   script_hash_to_address script_hash network
     = script_hash_to_address script_hash "testnet").
Proof.
  rewrite !script_hash_to_address_build. unfold header_byte, prefix_of.
  destruct (String.eqb_spec network "mainnet") as [->|Hne].
  - split; [auto | intros H; now contradict H].
  - split; [intros H; contradiction | auto].
Qed.

Lemma network_selects_header_and_prefix_witness :
  header_byte "preprod" = [0x70] /\ prefix_of "preprod" = "addr_test"%string /\
  script_hash_to_address ESCROW_SCRIPT_HASH "preprod"
    = script_hash_to_address ESCROW_SCRIPT_HASH "testnet".
Proof.
  destruct (network_selects_header_and_prefix ESCROW_SCRIPT_HASH "preprod") as [_ H].
  destruct H as (H1 & H2 & _ & H4); [discriminate|].
  repeat split; assumption.
Defined.

Section Decoding.

Lemma replace_0x_none r : contains_0x r = false -> replace_0x r = r.
Proof.
  induction r as [|c r IH]; [reflexivity|].
  simpl. destruct r as [|d r']; [reflexivity|].
  intros H. apply orb_false_elim in H as [Hcd Hrest].
  rewrite Hcd. f_equal. apply IH, Hrest.
Qed.

Lemma replace_0x_leading r : replace_0x ("0x" ++ r) = replace_0x r.
Proof. reflexivity. Qed.

Lemma hex_not_space c top : hex_digit c = Some top -> is_space c = false.
Proof.
  unfold hex_digit, is_space. set (n := ord c).
  destruct (Z.leb_spec 48 n), (Z.leb_spec n 57), (Z.leb_spec 97 n),
    (Z.leb_spec n 102), (Z.leb_spec 65 n), (Z.leb_spec n 70); simpl;
    try discriminate; intros _;
    destruct (Z.leb_spec 9 n), (Z.leb_spec n 13), (Z.eqb_spec n 32); simpl;
    try reflexivity; lia.
Qed.

Lemma hex_digit_range c v : hex_digit c = Some v -> 0 <= v <= 15.
Proof.
  unfold hex_digit. set (n := ord c).
  destruct (Z.leb_spec 48 n), (Z.leb_spec n 57), (Z.leb_spec 97 n),
    (Z.leb_spec n 102), (Z.leb_spec 65 n), (Z.leb_spec n 70); simpl;
    try discriminate; intros [= <-]; lia.
Qed.

(** Induction on the length of a string: [fromhex] reads two characters at
    a time. *)
Lemma string_length_ind (P : string -> Prop) :
  (forall s, (forall s', (String.length s' < String.length s)%nat -> P s') -> P s) ->
  forall s, P s.
Proof.
  intros Hstep s. remember (String.length s) as n eqn:Hn.
  revert s Hn. induction n as [n IH] using lt_wf_ind. intros s ->.
  apply Hstep. intros s' Hlt. now apply (IH _ Hlt).
Qed.

(** [bytes.fromhex] either returns or raises ValueError. *)
Lemma fromhex_total r :
  (exists bs, fromhex r = Return bs) \/ fromhex r = Raise ValueError.
Proof.
  induction r as [r IH] using string_length_ind.
  destruct r as [|c r]; [left; now exists []|].
  simpl. destruct (is_space c); [apply IH; simpl; lia|].
  destruct (hex_digit c) as [top|]; [|now right].
  destruct r as [|d r]; [now right|].
  destruct (hex_digit d) as [bot|]; [|now right].
  destruct (IH r) as [[bs ->]| ->]; [simpl; lia | left; now eexists | now right].
Qed.

(** What a string that decodes looks like: hex digits and white space only,
    two hex digits for each byte, and bytes in [0,255]. *)
Lemma fromhex_returns r : forall bs,
  fromhex r = Return bs ->
  forallb (fun c => is_hex c || is_space c) (list_ascii_of_string r) = true /\
  count_hex r = (2 * length bs)%nat /\
  fits 8 bs.
Proof.
  induction r as [r IH] using string_length_ind. intros bs.
  destruct r as [|c r].
  { intros [= <-]. repeat split. apply Forall_nil; exact I. }
  simpl.
  destruct (is_space c) eqn:Hsp.
  - intros H. apply IH in H as (Hall & Hcount & Hfit); [|simpl; lia].
    rewrite Hall, orb_true_r.
    assert (is_hex c = false) as ->; [|auto].
    unfold is_hex. destruct (hex_digit c) as [top|] eqn:Hc; [|reflexivity].
    apply hex_not_space in Hc. congruence.
  - destruct (hex_digit c) as [top|] eqn:Hc; [|discriminate].
    destruct r as [|d r]; [discriminate|].
    destruct (hex_digit d) as [bot|] eqn:Hd; [|discriminate].
    destruct (fromhex r) as [bs'| |] eqn:Hr; try discriminate.
    simpl. intros [= <-].
    apply IH in Hr as (Hall & Hcount & Hfit); [|simpl; lia].
    assert (is_hex c = true) as -> by (unfold is_hex; now rewrite Hc).
    assert (is_hex d = true) as -> by (unfold is_hex; now rewrite Hd).
    rewrite Hall, Hcount. simpl.
    repeat split; [lia|].
    apply Forall_cons. split; [|exact Hfit].
    apply hex_digit_range in Hc, Hd. simpl. lia.
Qed.

(** A string of hex digit pairs decodes to the bytes they write. *)
Lemma fromhex_pairs r : forall bs, hex_pairs r = Some bs -> fromhex r = Return bs.
Proof.
  induction r as [r IH] using string_length_ind. intros bs.
  destruct r as [|c [|d r]]; simpl; try discriminate.
  { now intros [= <-]. }
  destruct (hex_digit c) as [top|] eqn:Hc; [|discriminate].
  destruct (hex_digit d) as [bot|] eqn:Hd; [|discriminate].
  destruct (hex_pairs r) as [bs'|] eqn:Hr; [|discriminate].
  intros [= <-]. rewrite (hex_not_space _ _ Hc).
  rewrite (IH r ltac:(simpl; lia) bs' Hr). reflexivity.
Qed.

Lemma address_of_decoded script_hash network bs :
  fromhex (replace_0x script_hash) = Return bs ->
  exists address, script_hash_to_address script_hash network = Return address.
Proof.
  intros Hhex.
  destruct (convertbits_8_5 (header_byte network ++ bs)) as (five & Hc & Hr).
  unfold script_hash_to_address. rewrite Hhex. simpl obind.
  rewrite Hc. simpl obind. rewrite bech32_encode_ok by exact Hr. eauto.
Qed.

Lemma address_of_undecoded script_hash network :
  fromhex (replace_0x script_hash) = Raise ValueError ->
  script_hash_to_address script_hash network = Raise ValueError.
Proof. intros Hhex. unfold script_hash_to_address. now rewrite Hhex. Qed.

End Decoding.

(** C4 as stated fails: "ab cd" has odd length and holds a character that is
    not a hex digit, yet it decodes, to the bytes ab and cd. *)
Lemma decoding_accepts_white_space :
  ~ (forall script_hash network,
       spec_rejects (strip_leading_0x script_hash) = true ->
       script_hash_to_address script_hash network = Raise ValueError).
Proof.
  intros H. specialize (H "ab cd"%string "testnet"%string eq_refl).
  vm_compute in H. discriminate.
Qed.

(** Every "0x" goes, not only a leading one: an input with "0x" inside is
    read as if it were not there. *)
Example interior_0x_removed :
  replace_0x "ab0xcd" = "abcd"%string /\
  script_hash_to_address "ab0xcd" "testnet" = script_hash_to_address "abcd" "testnet" /\
  exists address, script_hash_to_address "ab0xcd" "testnet" = Return address.
Proof. repeat split. eexists. vm_compute. reflexivity. Qed.

(** ** Verifying a checksum *)

Section Verify.

Lemma lxor_shiftl_add a v n :
  0 <= n -> 0 <= v < 2 ^ n -> Z.lxor (Z.shiftl a n) v = a * 2 ^ n + v.
Proof.
  intros Hn Hv. rewrite <- lor_shiftl_add by assumption.
  apply Z.lxor_lor. apply Z.bits_inj'. intros i Hi.
  rewrite Z.land_spec, Z.testbit_0_l.
  destruct (Z.lt_ge_cases i n).
  - now rewrite Z.shiftl_spec_low by lia.
  - rewrite (below_pow2_bits v n) by lia. apply andb_false_r.
Qed.

(** Below 25 bits no generator constant comes in: a turn shifts the value
    in. *)
Lemma polymod_step_small c v :
  0 <= c < 2 ^ 25 -> 0 <= v < 32 -> polymod_step c v = c * 32 + v.
Proof.
  intros Hc Hv. rewrite polymod_step_split.
  rewrite Z.shiftr_div_pow2, Z.div_small by lia. simpl fold_left.
  change (gen_select 0 0) with 0. change (gen_select 0 1) with 0.
  change (gen_select 0 2) with 0. change (gen_select 0 3) with 0.
  change (gen_select 0 4) with 0. simpl. rewrite Z.lxor_0_r.
  change 33554431 with (Z.ones 25). rewrite Z.land_ones, Z.mod_small by lia.
  now rewrite (lxor_shiftl_add c v 5) by (simpl; lia).
Qed.

(** Two runs of the loop on lists of the same length, XORed. *)
Lemma fold_polymod_lxor (vs1 : list Z) : forall vs2 c1 c2,
  length vs1 = length vs2 ->
  Z.lxor (fold_left polymod_step vs1 c1) (fold_left polymod_step vs2 c2) =
  fold_left polymod_step (zip_with Z.lxor vs1 vs2) (Z.lxor c1 c2).
Proof.
  induction vs1 as [|v1 vs1 IH]; intros [|v2 vs2] c1 c2 Hlen;
    try discriminate; [reflexivity|].
  simpl. rewrite IH by (simpl in Hlen; lia).
  now rewrite polymod_step_lxor.
Qed.

(** From state 0, six 5-bit symbols are read as one 30-bit number. *)
Lemma fold_polymod_six s0 s1 s2 s3 s4 s5 :
  fits 5 [s0; s1; s2; s3; s4; s5] ->
  fold_left polymod_step [s0; s1; s2; s3; s4; s5] 0 =
  digits_value 5 [s0; s1; s2; s3; s4; s5].
Proof.
  intros H. unfold fits in H.
  repeat (apply Forall_cons in H as [? H]). change (2 ^ 5) with 32 in *.
  unfold digits_value. simpl fold_left. change (2 ^ 5) with 32.
  rewrite (polymod_step_small 0 s0) by lia.
  rewrite (polymod_step_small _ s1) by lia.
  rewrite (polymod_step_small _ s2) by lia.
  rewrite (polymod_step_small _ s3) by lia.
  rewrite (polymod_step_small _ s4) by lia.
  rewrite (polymod_step_small _ s5) by lia.
  reflexivity.
Qed.

(** Six symbols after any values: the remainder is the remainder after six
    zeros, XORed with the number the symbols write. *)
Lemma polymod_six_symbols values cs :
  length cs = 6%nat -> fits 5 cs ->
  bech32_polymod (values ++ cs) =
  Z.lxor (bech32_polymod (values ++ [0; 0; 0; 0; 0; 0])) (digits_value 5 cs).
Proof.
  intros Hlen Hfit.
  destruct cs as [|s0 [|s1 [|s2 [|s3 [|s4 [|s5 [|]]]]]]]; try discriminate.
  rewrite <- fold_polymod_six by exact Hfit.
  unfold bech32_polymod. rewrite !fold_left_app.
  set (c := fold_left polymod_step values 1).
  pose proof (fold_polymod_lxor [0; 0; 0; 0; 0; 0] [s0; s1; s2; s3; s4; s5]
                c 0 eq_refl) as H.
  simpl zip_with in H. rewrite !Z.lxor_0_l, Z.lxor_0_r in H.
  now rewrite H.
Qed.

Lemma checksum_fits hrp data : fits 5 (bech32_create_checksum hrp data).
Proof.
  eapply Forall_impl; [apply checksum_range|]. simpl. intros d Hd.
  change (2 ^ 5) with 32. lia.
Qed.

Lemma checksum_digits hrp data :
  digits_value 5 (bech32_create_checksum hrp data) =
  Z.lxor (bech32_polymod ((bech32_hrp_expand hrp ++ data) ++ [0; 0; 0; 0; 0; 0])) 1.
Proof.
  rewrite create_checksum_symbols. cbv zeta. set (p := Z.lxor _ 1).
  assert (0 <= p < 2 ^ 30) as Hp
    by (apply lxor_below_pow2; [lia | apply polymod_padded_range | lia]).
  rewrite (symbols_value p Hp) at 7.
  unfold digits_value. simpl fold_left.
  change (2 ^ 25) with (2 ^ 5 * 2 ^ 5 * 2 ^ 5 * 2 ^ 5 * 2 ^ 5).
  change (2 ^ 20) with (2 ^ 5 * 2 ^ 5 * 2 ^ 5 * 2 ^ 5).
  change (2 ^ 15) with (2 ^ 5 * 2 ^ 5 * 2 ^ 5).
  change (2 ^ 10) with (2 ^ 5 * 2 ^ 5).
  ring.
Qed.

(** The values behind an encoded string verify: their remainder is 1. *)
Lemma polymod_of_codeword hrp data :
  bech32_polymod (bech32_hrp_expand hrp ++ data ++ bech32_create_checksum hrp data) = 1.
Proof.
  rewrite app_assoc.
  rewrite polymod_six_symbols by (reflexivity || apply checksum_fits).
  rewrite checksum_digits.
  now rewrite <- Z.lxor_assoc, Z.lxor_nilpotent, Z.lxor_0_l.
Qed.

End Verify.

(** X1.  The checksum is what a verifier expects, and nothing else is: the
    remainder of the expanded prefix, the payload and the six checksum
    symbols is 1, and any six 5-bit symbols that give remainder 1 in their
    place are the checksum. *)
Theorem checksum_verifies_uniquely (hrp : string) (data : list Z) :
  bech32_polymod (bech32_hrp_expand hrp ++ data ++ bech32_create_checksum hrp data) = 1 /\
  forall cs, length cs = 6%nat -> fits 5 cs ->
             bech32_polymod (bech32_hrp_expand hrp ++ data ++ cs) = 1 ->
             cs = bech32_create_checksum hrp data.
Proof.
  split; [apply polymod_of_codeword|].
  intros cs Hlen Hfit Hone.
  apply (digits_value_inj 5); [lia | exact Hfit | apply checksum_fits | exact Hlen |].
  rewrite checksum_digits.
  rewrite app_assoc, polymod_six_symbols in Hone by assumption.
  apply (f_equal (Z.lxor (bech32_polymod
            ((bech32_hrp_expand hrp ++ data) ++ [0; 0; 0; 0; 0; 0])))) in Hone.
  now rewrite <- Z.lxor_assoc, Z.lxor_nilpotent, Z.lxor_0_l in Hone.
Qed.

Lemma checksum_verifies_uniquely_witness :
  [10; 28; 25; 31; 20; 31] = bech32_create_checksum "a" [].
Proof.
  apply (proj2 (checksum_verifies_uniquely "a" [])).
  - reflexivity.
  - unfold fits; repeat constructor; simpl; lia.
  - vm_compute. reflexivity.
Defined.

(** X2.  A verifier detects any one substituted symbol of an encoded string:
    for a payload of 5-bit symbols, replacing the symbol at any index of
    payload and checksum by a different 5-bit value gives a remainder other
    than 1. *)
Theorem verification_detects_substitution
    (hrp : string) (data : list Z) (i : nat) (a v : Z) :
  fits 5 data ->
  (data ++ bech32_create_checksum hrp data) !! i = Some a ->
  0 <= v <= 31 -> v <> a ->
  bech32_polymod
    (bech32_hrp_expand hrp ++ <[i:=v]> (data ++ bech32_create_checksum hrp data)) <> 1.
Proof.
  intros Hdata Hi Hv Hva.
  set (w := data ++ bech32_create_checksum hrp data) in *.
  assert (fits 5 w) as Hw
    by (apply Forall_app; split; [exact Hdata | apply checksum_fits]).
  assert (0 <= a < 2 ^ 5) as Ha by exact (Forall_lookup_1 _ _ _ _ Hw Hi).
  change (2 ^ 5) with 32 in Ha.
  assert (i < length w)%nat as Hlen by (eapply lookup_lt_Some; eauto).
  rewrite insert_take_drop by exact Hlen.
  rewrite <- (polymod_of_codeword hrp data). fold w.
  rewrite <- (take_drop_middle w i a Hi) at 3.
  rewrite !app_assoc. apply not_eq_sym.
  apply polymod_single_change; lia.
Qed.

Lemma verification_detects_substitution_witness :
  bech32_polymod
    (bech32_hrp_expand "addr"
       ++ <[4%nat:=0]> ([3; 14; 31] ++ bech32_create_checksum "addr" [3; 14; 31])) <> 1.
Proof.
  eapply (verification_detects_substitution "addr" [3; 14; 31] 4).
  - unfold fits; repeat constructor; simpl; lia.
  - vm_compute. reflexivity.
  - lia.
  - lia.
Defined.

(** X3.  The state of [bech32_polymod] never leaves 30 bits: on values
    below 2^30, so on 5-bit symbols, the result is in [0, 2^30). *)
Theorem bech32_polymod_30_bits (values : list Z) :
  Forall (fun v => 0 <= v < 2 ^ 30) values ->
  0 <= bech32_polymod values < 2 ^ 30.
Proof.
  intros Hv. unfold bech32_polymod.
  assert (0 <= 1 < 2 ^ 30) as H1 by lia. revert H1. generalize 1 as c.
  induction Hv as [|v vs Hv _ IH]; intros c Hc; [exact Hc|].
  simpl. apply IH. now apply polymod_step_range.
Qed.

Lemma bech32_polymod_30_bits_witness :
  0 <= bech32_polymod [3; 3; 0; 1; 4; 31; 17] < 2 ^ 30.
Proof.
  apply bech32_polymod_30_bits. repeat constructor; lia.
Defined.

(** ** More on the bit-width converter *)

(** X4.  With padding and sound widths, [convertbits] keeps the bit stream:
    for elements that fit [frombits] bits the output has
    ceil(length * frombits / tobits) elements of [tobits] bits, and read as one
    number it is the input followed by the zero bits that fill the last
    element, fewer than [tobits] of them. *)
Theorem convertbits_pad_bitstream (data : list Z) (frombits tobits : Z) :
  0 <= frombits -> 0 < tobits -> fits frombits data ->
  exists out,
    convertbits data frombits tobits true = Return (Some out) /\
    fits tobits out /\
    Z.of_nat (length out) = (Z.of_nat (length data) * frombits + tobits - 1) / tobits /\
    0 <= Z.of_nat (length out) * tobits - Z.of_nat (length data) * frombits < tobits /\
    digits_value tobits out =
      digits_value frombits data
      * 2 ^ (Z.of_nat (length out) * tobits - Z.of_nat (length data) * frombits).
Proof.
  intros Hf Ht Hdata.
  destruct (convertbits_pad frombits tobits Hf Ht data Hdata)
    as (out & k & Hres & Hk & Hlen & Hval & Hfit).
  exists out. split; [exact Hres|]. split; [exact Hfit|].
  replace (Z.of_nat (length out) * tobits - Z.of_nat (length data) * frombits)
    with k by lia.
  split; [|split; [exact Hk | exact Hval]].
  apply (Z.div_unique _ _ _ (tobits - 1 - k)); lia.
Qed.

Lemma convertbits_pad_bitstream_witness :
  exists out, convertbits [1; 2; 3] 3 4 true = Return (Some out) /\
              Z.of_nat (length out) = (Z.of_nat (length [1; 2; 3]) * 3 + 4 - 1) / 4.
Proof.
  destruct (convertbits_pad_bitstream [1; 2; 3] 3 4) as (out & H1 & _ & H3 & _).
  - lia.
  - lia.
  - unfold fits; repeat constructor; simpl; lia.
  - exists out. split; assumption.
Defined.

(** X5.  Regrouping to a width that is not larger, with padding, and back
    without padding gives the input back, for all such widths: for
    [0 < tobits <= frombits] and elements that fit [frombits] bits,
    convertbits(convertbits(data, frombits, tobits, True), tobits, frombits,
    False) is [data]. *)
Theorem convertbits_narrow_roundtrip (data : list Z) (frombits tobits : Z) :
  0 < tobits <= frombits -> fits frombits data ->
  exists D,
    convertbits data frombits tobits true = Return (Some D) /\
    convertbits D tobits frombits false = Return (Some data).
Proof.
  intros Hw Hdata.
  destruct (convertbits_pad frombits tobits ltac:(lia) ltac:(lia) data Hdata)
    as (D & k & Hfwd & Hk & Hlen & Hval & HD).
  exists D. split; [exact Hfwd|].
  destruct (convertbits_nopad tobits frombits ltac:(lia) ltac:(lia) D HD)
    as (acc & ret & _ & Hrval & Hrlen & Hrfit & _ & ->).
  assert ((Z.of_nat (length D) * tobits) mod frombits = k) as Hleft.
  { symmetry. apply (Z.mod_unique _ _ (Z.of_nat (length data))); lia. }
  assert ((Z.of_nat (length D) * tobits) / frombits = Z.of_nat (length data)) as Hquot.
  { symmetry. apply (Z.div_unique _ _ _ k); lia. }
  rewrite Hleft in *. rewrite Hquot in Hrlen. rewrite Hval in *.
  assert (0 < 2 ^ k) as Hpk by (apply pow2_pos; lia).
  rewrite Z.mod_mul by lia. rewrite Z.div_mul in Hrval by lia.
  destruct (Z.leb_spec tobits k); [lia|]. simpl.
  do 2 f_equal.
  apply (digits_value_inj frombits); auto with lia.
Qed.

Lemma convertbits_narrow_roundtrip_witness :
  exists D, convertbits [100; 7; 127] 7 3 true = Return (Some D) /\
            convertbits D 3 7 false = Return (Some [100; 7; 127]).
Proof.
  apply (convertbits_narrow_roundtrip [100; 7; 127] 7 3).
  - lia.
  - unfold fits; repeat constructor; simpl; lia.
Defined.

(** X6.  What [convertbits] accepts without padding it gives back with
    padding, for all widths: if the elements of [D] fit [frombits] bits and
    the call without padding returns a list [B], then [B] fits [tobits] bits
    and regrouping [B] the other way with padding returns [D]. *)
Theorem convertbits_nopad_inverse (D B : list Z) (frombits tobits : Z) :
  0 < frombits -> 0 < tobits -> fits frombits D ->
  convertbits D frombits tobits false = Return (Some B) ->
  fits tobits B /\ convertbits B tobits frombits true = Return (Some D).
Proof.
  intros Hf Ht HD Hres.
  destruct (convertbits_nopad frombits tobits ltac:(lia) Ht D HD)
    as (acc & ret & _ & Hrval & Hrlen & Hrfit & _ & Heq).
  rewrite Heq in Hres. clear Heq.
  set (left := (Z.of_nat (length D) * frombits) mod tobits) in *.
  set (n := digits_value frombits D) in *.
  destruct (Z.leb_spec frombits left) as [|Hlt]; [discriminate|].
  destruct (Z.eqb_spec (n mod 2 ^ left) 0) as [Hz|]; [|discriminate].
  simpl in Hres. injection Hres as <-.
  split; [exact Hrfit|].
  assert (0 <= left < tobits) as Hl by (apply Z.mod_pos_bound; lia).
  destruct (convertbits_pad tobits frombits ltac:(lia) Hf ret Hrfit)
    as (out & k & -> & Hk & Hlen & Hval & Hfit).
  pose proof (Z.div_mod (Z.of_nat (length D) * frombits) tobits ltac:(lia)) as Hdm.
  fold left in Hdm. rewrite <- Hrlen in Hdm.
  assert (Z.of_nat (length out) = Z.of_nat (length D)) as Hlen'.
  { assert ((Z.of_nat (length out) - Z.of_nat (length D)) * frombits = k - left)
      as Hd by lia.
    assert (- frombits < k - left < frombits) as Hb by lia.
    nia. }
  assert (k = left) as -> by nia.
  apply Nat2Z.inj in Hlen'.
  do 2 f_equal. apply (digits_value_inj frombits); auto with lia.
  rewrite Hval, Hrval.
  assert (0 < 2 ^ left) as Hp by (apply pow2_pos; lia).
  pose proof (Z.div_mod n (2 ^ left) ltac:(lia)). fold n. lia.
Qed.

Lemma convertbits_nopad_inverse_witness :
  fits 8 [8; 128] /\ convertbits [8; 128] 8 5 true = Return (Some [1; 2; 0; 0]).
Proof.
  apply (convertbits_nopad_inverse [1; 2; 0; 0] [8; 128] 5 8).
  - lia.
  - lia.
  - unfold fits; repeat constructor; simpl; lia.
  - reflexivity.
Defined.

(** X7.  Padding adds at most one zero element to what the call without
    padding returns: whatever the input and the widths, if
    [convertbits] without padding returns a list [r], then with padding it
    returns [r] or [r] followed by 0. *)
Theorem convertbits_pad_extends_nopad (data r : list Z) (frombits tobits : Z) :
  convertbits data frombits tobits false = Return (Some r) ->
  convertbits data frombits tobits true = Return (Some r) \/
  convertbits data frombits tobits true = Return (Some (r ++ [0])).
Proof.
  unfold convertbits.
  destruct (py_lshift 1 tobits) as [one| |]; try discriminate. simpl obind.
  destruct (py_lshift 1 (frombits + tobits - 1)) as [one'| |]; try discriminate.
  simpl obind.
  destruct (convert_loop _ _ _ _ _ data) as [[[acc bits] ret]| |]; try discriminate.
  simpl obind.
  destruct (bits >=? frombits); [discriminate|].
  destruct (py_lshift acc (tobits - bits)) as [sh| |]; try discriminate.
  simpl obind.
  destruct (Z.eqb_spec (Z.land sh (one - 1)) 0) as [Hz|]; [|discriminate].
  intros [= <-]. rewrite Hz.
  destruct (bits =? 0); auto.
Qed.

Lemma convertbits_pad_extends_nopad_witness :
  convertbits [31; 0] 5 8 true = Return (Some [248]) \/
  convertbits [31; 0] 5 8 true = Return (Some ([248] ++ [0])).
Proof.
  apply (convertbits_pad_extends_nopad [31; 0] [248] 5 8). reflexivity.
Defined.

(** X8.  At exact multiples nothing is padded or rejected: for
    [1 <= frombits], [0 < tobits], elements that fit [frombits] bits and a
    total bit count that is a multiple of [tobits], [convertbits] returns the
    same list with and without padding, and that list is the input's bit
    stream, unchanged. *)
Theorem convertbits_exact (data : list Z) (frombits tobits : Z) :
  1 <= frombits -> 0 < tobits -> fits frombits data ->
  (Z.of_nat (length data) * frombits) mod tobits = 0 ->
  exists out,
    convertbits data frombits tobits false = Return (Some out) /\
    convertbits data frombits tobits true = Return (Some out) /\
    fits tobits out /\
    Z.of_nat (length out) * tobits = Z.of_nat (length data) * frombits /\
    digits_value tobits out = digits_value frombits data.
Proof.
  intros Hf Ht Hdata Hmod.
  destruct (convertbits_nopad frombits tobits ltac:(lia) Ht data Hdata)
    as (acc & ret & Hloop & Hval & Hlen & Hfit & _ & Hres).
  rewrite Hmod in *. simpl (2 ^ 0) in *.
  rewrite Z.mod_1_r in Hres. rewrite Z.div_1_r in Hval.
  destruct (Z.leb_spec frombits 0); [lia|]. simpl in Hres.
  exists ret. split; [exact Hres|]. split; [|split; [exact Hfit | split; [|exact Hval]]].
  - rewrite convertbits_unfold by lia. rewrite Hloop. reflexivity.
  - rewrite Hlen.
    pose proof (Z.div_mod (Z.of_nat (length data) * frombits) tobits ltac:(lia)).
    lia.
Qed.

Lemma convertbits_exact_witness :
  exists out, convertbits [1; 2; 3; 4; 5; 6; 7; 8] 5 8 false = Return (Some out) /\
              convertbits [1; 2; 3; 4; 5; 6; 7; 8] 5 8 true = Return (Some out).
Proof.
  destruct (convertbits_exact [1; 2; 3; 4; 5; 6; 7; 8] 5 8) as (out & H1 & H2 & _).
  - lia.
  - lia.
  - unfold fits; repeat constructor; simpl; lia.
  - reflexivity.
  - exists out. split; assumption.
Defined.

(** ** More on the encoder and the address builder *)

Section Alphabet.

Lemma charset_get_wraps d :
  -32 <= d <= 31 -> charset_get d = Return (charset_char (d mod 32)).
Proof.
  intros Hd.
  assert (forallb (fun i => match charset_get (i - 32) with
                            | Return c => Ascii.eqb c (charset_char ((i - 32) mod 32))
                            | _ => false
                            end) (range 64) = true) as Hall
      by (vm_compute; reflexivity).
  assert (In (d + 32) (range 64)) as Hin.
  { unfold range. apply in_map_iff. exists (Z.to_nat (d + 32)).
    split; [lia|]. apply in_seq. lia. }
  pose proof (proj1 (forallb_forall _ _) Hall _ Hin) as H. cbv beta in H.
  replace (d + 32 - 32) with d in H by lia.
  destruct (charset_get d) as [c| |]; try discriminate.
  apply Ascii.eqb_eq in H. now subst.
Qed.

Lemma charset_get_outside d :
  d < -32 \/ 31 < d -> charset_get d = Raise IndexError.
Proof.
  intros Hd. unfold charset_get.
  destruct (Z.ltb_spec d 0);
    [destruct (Z.leb_spec 0 (d + 32)), (Z.ltb_spec (d + 32) 32)
    |destruct (Z.leb_spec 0 d), (Z.ltb_spec d 32)]; simpl; try reflexivity; lia.
Qed.

Lemma charset_map_outcome l :
  (Forall (fun d => -32 <= d <= 31) l ->
   charset_map l
   = Return (string_of_list_ascii (map (fun d => charset_char (d mod 32)) l))) /\
  (Exists (fun d => d < -32 \/ 31 < d) l -> charset_map l = Raise IndexError).
Proof.
  induction l as [|d l [IHin IHout]].
  - split; [reflexivity | intros H; inversion H].
  - split.
    + intros H. apply Forall_cons in H as [Hd Hl].
      simpl. rewrite charset_get_wraps, IHin by assumption. reflexivity.
    + intros H. simpl.
      destruct (Z.lt_ge_cases d (-32)) as [|Hlo];
        [now rewrite charset_get_outside by lia|].
      destruct (Z.lt_ge_cases 31 d) as [|Hhi];
        [now rewrite charset_get_outside by lia|].
      rewrite charset_get_wraps by lia. simpl.
      apply Exists_cons in H as [?|Hl]; [lia|].
      now rewrite IHout.
Qed.

Lemma index_in_or_out l :
  Forall (fun d => -32 <= d <= 31) l \/ Exists (fun d => d < -32 \/ 31 < d) l.
Proof.
  induction l as [|d l [IH|IH]].
  - left. apply Forall_nil; exact I.
  - destruct (Z.lt_ge_cases d (-32)); [right; apply Exists_cons_hd; lia|].
    destruct (Z.lt_ge_cases 31 d); [right; apply Exists_cons_hd; lia|].
    left. apply Forall_cons. split; [lia | exact IH].
  - right. now apply Exists_cons_tl.
Qed.

Lemma charset_char_inj a b :
  0 <= a <= 31 -> 0 <= b <= 31 -> charset_char a = charset_char b -> a = b.
Proof.
  intros Ha Hb Heq.
  assert (forallb (fun a => forallb (fun b =>
              negb (Ascii.eqb (charset_char a) (charset_char b)) || (a =? b))
            (range 32)) (range 32) = true) as Hall by (vm_compute; reflexivity).
  assert (forall x, 0 <= x <= 31 -> In x (range 32)) as Hin.
  { intros x Hx. unfold range. apply in_map_iff. exists (Z.to_nat x).
    split; [lia|]. apply in_seq. lia. }
  pose proof (proj1 (forallb_forall _ _) Hall a (Hin a Ha)) as H1. cbv beta in H1.
  pose proof (proj1 (forallb_forall _ _) H1 b (Hin b Hb)) as H2. cbv beta in H2.
  rewrite Heq, Ascii.eqb_refl in H2. now apply Z.eqb_eq.
Qed.

Lemma map_charset_char_inj l1 : forall l2,
  Forall (fun d => 0 <= d <= 31) l1 -> Forall (fun d => 0 <= d <= 31) l2 ->
  map charset_char l1 = map charset_char l2 -> l1 = l2.
Proof.
  induction l1 as [|a l1 IH]; intros [|b l2] H1 H2 Heq; try discriminate;
    [reflexivity|].
  apply Forall_cons in H1 as [Ha H1]. apply Forall_cons in H2 as [Hb H2].
  injection Heq as Hab Hrest.
  f_equal; [now apply charset_char_inj | now apply IH].
Qed.

Lemma string_length_app s1 s2 :
  String.length (s1 ++ s2) = (String.length s1 + String.length s2)%nat.
Proof. induction s1 as [|c s1 IH]; simpl; [reflexivity | now rewrite IH]. Qed.

Lemma string_length_of_list l : String.length (string_of_list_ascii l) = length l.
Proof. induction l as [|c l IH]; simpl; [reflexivity | now rewrite IH]. Qed.

Lemma string_app_inv_head s a b : (s ++ a)%string = (s ++ b)%string -> a = b.
Proof. induction s as [|c s IH]; simpl; [auto | intros [= H]; auto]. Qed.

End Alphabet.

(** X9.  [bech32_encode] raises IndexError exactly when some payload symbol
    is outside [-32, 31]; it raises nothing else.  Symbols from -32 to -1 are
    not rejected: they index the alphabet from its end, so with all symbols in
    [-32, 31] the call returns the prefix, "1", and the character at index
    [d mod 32] for each symbol [d] of payload and checksum. *)
Theorem bech32_encode_index_error (hrp : string) (data : list Z) :
  (bech32_encode hrp data = Raise IndexError <->
   Exists (fun d => d < -32 \/ 31 < d) data) /\
  (Forall (fun d => -32 <= d <= 31) data ->
   bech32_encode hrp data =
   Return (hrp ++ "1"
           ++ string_of_list_ascii
                (map (fun d => charset_char (d mod 32))
                     (data ++ bech32_create_checksum hrp data)))%string).
Proof.
  destruct (charset_map_outcome (data ++ bech32_create_checksum hrp data))
    as [Hin Hout].
  assert (Forall (fun d => -32 <= d <= 31) data ->
          Forall (fun d => -32 <= d <= 31) (data ++ bech32_create_checksum hrp data))
    as Hall.
  { intros H. apply Forall_app. split; [exact H|].
    eapply Forall_impl; [apply checksum_range|]. simpl. lia. }
  split; [split|].
  - intros Hraise.
    destruct (index_in_or_out data) as [Hok|Hbad]; [|exact Hbad].
    unfold bech32_encode in Hraise. rewrite (Hin (Hall Hok)) in Hraise.
    discriminate.
  - intros Hbad. unfold bech32_encode. rewrite Hout; [reflexivity|].
    apply Exists_app. now left.
  - intros Hok. unfold bech32_encode. now rewrite (Hin (Hall Hok)).
Qed.

Lemma bech32_encode_index_error_witness :
  bech32_encode "a" [0; 32] = Raise IndexError /\
  exists s, bech32_encode "a" [0; -1] = Return s.
Proof.
  destruct (bech32_encode_index_error "a" [0; 32]) as [[_ Hbad] _].
  destruct (bech32_encode_index_error "a" [0; -1]) as [_ Hok].
  split.
  - apply Hbad. apply Exists_cons_tl, Exists_cons_hd. lia.
  - eexists. apply Hok. repeat constructor; lia.
Defined.

Section AddressShape.

Lemma header_byte_fits network bs : fits 8 bs -> fits 8 (header_byte network ++ bs).
Proof.
  intros Hbs. apply Forall_app. split; [|exact Hbs].
  unfold header_byte. destruct (String.eqb network "mainnet");
    repeat constructor; simpl; lia.
Qed.

Lemma fits_5_range l : fits 5 l -> Forall (fun d => 0 <= d <= 31) l.
Proof.
  intros H. eapply Forall_impl; [exact H|]. simpl. intros d Hd.
  change (2 ^ 5) with 32 in Hd. lia.
Qed.

(** The address of a hash that decodes, with the payload it is made of. *)
Lemma address_shape script_hash network bs :
  fromhex (replace_0x script_hash) = Return bs ->
  exists payload k,
    convertbits (header_byte network ++ bs) 8 5 true = Return (Some payload) /\
    fits 5 payload /\ 0 <= k < 5 /\
    Z.of_nat (length payload) * 5 = Z.of_nat (length (header_byte network ++ bs)) * 8 + k /\
    script_hash_to_address script_hash network =
    Return (prefix_of network ++ "1"
            ++ string_of_list_ascii
                 (map charset_char
                    (payload ++ bech32_create_checksum (prefix_of network) payload)))%string.
Proof.
  intros Hhex.
  assert (fits 8 (header_byte network ++ bs)) as Hfit
    by (apply header_byte_fits; now apply fromhex_returns in Hhex).
  destruct (convertbits_pad 8 5 ltac:(lia) ltac:(lia) _ Hfit)
    as (payload & k & Hc & Hk & Hlen & _ & Hp).
  exists payload, k. repeat (split; [assumption || lia|]).
  unfold script_hash_to_address. rewrite Hhex. simpl obind.
  rewrite Hc. simpl obind. now rewrite bech32_encode_ok by now apply fits_5_range.
Qed.

Lemma address_returns_decoded script_hash network address :
  script_hash_to_address script_hash network = Return address ->
  exists bs, fromhex (replace_0x script_hash) = Return bs.
Proof.
  intros Haddr. destruct (fromhex_total (replace_0x script_hash)) as [H|Herr];
    [exact H|].
  rewrite (address_of_undecoded _ _ Herr) in Haddr. discriminate.
Qed.

(** Regrouping to a width that is not larger loses nothing. *)
Lemma convertbits_pad_inj frombits tobits B1 B2 D :
  0 < tobits <= frombits -> fits frombits B1 -> fits frombits B2 ->
  convertbits B1 frombits tobits true = Return (Some D) ->
  convertbits B2 frombits tobits true = Return (Some D) ->
  B1 = B2.
Proof.
  intros Hw H1 H2 Hc1 Hc2.
  destruct (convertbits_pad frombits tobits ltac:(lia) ltac:(lia) B1 H1)
    as (D1 & k1 & Hd1 & Hk1 & Hlen1 & Hval1 & _).
  destruct (convertbits_pad frombits tobits ltac:(lia) ltac:(lia) B2 H2)
    as (D2 & k2 & Hd2 & Hk2 & Hlen2 & Hval2 & _).
  rewrite Hc1 in Hd1. rewrite Hc2 in Hd2.
  injection Hd1 as <-. injection Hd2 as <-.
  assert (Z.of_nat (length B1) = Z.of_nat (length B2)) as Hlen.
  { assert ((Z.of_nat (length B1) - Z.of_nat (length B2)) * frombits = k2 - k1)
      as Hd by lia.
    assert (- frombits < k2 - k1 < frombits) as Hb by lia.
    nia. }
  assert (k1 = k2) as <- by nia.
  apply (digits_value_inj frombits); auto with lia.
  assert (0 < 2 ^ k1) as Hp by (apply pow2_pos; lia).
  rewrite Hval1 in Hval2. nia.
Qed.

End AddressShape.

(** X10.  The length of an address follows from the length of the hash: for
    a hash that decodes to [n] bytes the address is the prefix, the separator,
    ceil(8 * (n + 1) / 5) payload characters and 6 checksum characters (63
    characters on a test network and 58 on mainnet for a 28-byte hash). *)
Theorem address_length (script_hash network : string) (hash_bytes : list Z) :
  fromhex (replace_0x script_hash) = Return hash_bytes ->
  exists address,
    script_hash_to_address script_hash network = Return address /\
    Z.of_nat (String.length address) =
      Z.of_nat (String.length (prefix_of network)) + 1
      + (8 * (Z.of_nat (length hash_bytes) + 1) + 4) / 5 + 6.
Proof.
  intros Hhex.
  destruct (address_shape script_hash network hash_bytes Hhex)
    as (payload & k & _ & _ & Hk & Hlen & ->).
  eexists. split; [reflexivity|].
  rewrite !string_length_app, string_length_of_list, length_map, length_app.
  change (length (bech32_create_checksum (prefix_of network) payload)) with 6%nat.
  change (String.length "1") with 1%nat.
  assert (length (header_byte network ++ hash_bytes) = S (length hash_bytes)) as Hh
    by (unfold header_byte; now destruct (String.eqb network "mainnet")).
  rewrite Hh in Hlen.
  assert ((8 * (Z.of_nat (length hash_bytes) + 1) + 4) / 5 = Z.of_nat (length payload))
    as ->.
  { symmetry. apply (Z.div_unique _ _ _ (4 - k)); lia. }
  lia.
Qed.

Lemma address_length_witness :
  exists address,
    script_hash_to_address ESCROW_SCRIPT_HASH "testnet" = Return address /\
    Z.of_nat (String.length address) = 63.
Proof.
  destruct (address_length ESCROW_SCRIPT_HASH "testnet" _ eq_refl) as (a & Ha & Hl).
  exists a. split; [exact Ha|]. rewrite Hl. reflexivity.
Defined.

(** X11.  Different hashes never share an address: if two inputs decode and
    [script_hash_to_address] gives them the same outcome on the same network,
    they decode to the same bytes. *)
Theorem address_injective (s1 s2 network : string) (bs1 bs2 : list Z) :
  fromhex (replace_0x s1) = Return bs1 ->
  fromhex (replace_0x s2) = Return bs2 ->
  script_hash_to_address s1 network = script_hash_to_address s2 network ->
  bs1 = bs2.
Proof.
  intros Hx1 Hx2 Heq.
  destruct (address_shape s1 network bs1 Hx1) as (p1 & k1 & Hc1 & Hp1 & _ & _ & Ha1).
  destruct (address_shape s2 network bs2 Hx2) as (p2 & k2 & Hc2 & Hp2 & _ & _ & Ha2).
  rewrite Ha1, Ha2 in Heq. injection Heq as Heq.
  apply string_app_inv_head in Heq. injection Heq as Heq.
  apply (f_equal list_ascii_of_string) in Heq.
  rewrite !list_ascii_of_string_of_list_ascii in Heq.
  apply map_charset_char_inj in Heq;
    [| apply Forall_app; split; [now apply fits_5_range | apply checksum_range] ..].
  apply app_inj_2 in Heq as [<- _]; [|reflexivity].
  assert (header_byte network ++ bs1 = header_byte network ++ bs2) as Hb.
  { apply (convertbits_pad_inj 8 5 _ _ p1); try assumption; try lia.
    - apply header_byte_fits. now apply fromhex_returns in Hx1.
    - apply header_byte_fits. now apply fromhex_returns in Hx2. }
  now apply app_inv_head in Hb.
Qed.

Lemma address_injective_witness : [171; 205] = [171; 205].
Proof.
  apply (address_injective "abcd" "0xAB CD" "testnet"); reflexivity.
Defined.

(** X12.  An address made for mainnet is never an address made for another
    network, whatever the two hashes are. *)
Theorem mainnet_address_distinct (s1 s2 network address : string) :
  network <> "mainnet"%string ->
  script_hash_to_address s1 "mainnet" = Return address ->
  script_hash_to_address s2 network <> Return address.
Proof.
  intros Hnet H1 H2.
  destruct (address_returns_decoded _ _ _ H1) as [bs1 Hx1].
  destruct (address_returns_decoded _ _ _ H2) as [bs2 Hx2].
  destruct (address_shape s1 "mainnet" bs1 Hx1) as (p1 & k1 & _ & _ & _ & _ & Ha1).
  destruct (address_shape s2 network bs2 Hx2) as (p2 & k2 & _ & _ & _ & _ & Ha2).
  rewrite Ha1 in H1. rewrite Ha2 in H2. rewrite <- H2 in H1.
  unfold prefix_of in H1.
  destruct (String.eqb_spec network "mainnet"); [contradiction|].
  simpl in H1. discriminate.
Qed.

Lemma mainnet_address_distinct_witness :
  script_hash_to_address POOL_SCRIPT_HASH "testnet"
  <> Return "addr1w9u4kz83wgtgslg0mkpaa3s8jznelwsfnzkf6aht93ldszsjl2htm"%string.
Proof.
  apply (mainnet_address_distinct ESCROW_SCRIPT_HASH POOL_SCRIPT_HASH "testnet").
  - discriminate.
  - vm_compute. reflexivity.
Defined.

(** X13.  The only way [script_hash_to_address] fails is the hex decoding:
    for every input and network it either returns an address, when
    [bytes.fromhex] accepts the string left by [replace], or raises
    ValueError, when it does not; it never raises IndexError or TypeError and
    never loops. *)
Theorem script_hash_to_address_outcomes (script_hash network : string) :
  (exists bs address,
     fromhex (replace_0x script_hash) = Return bs /\
     script_hash_to_address script_hash network = Return address) \/
  (fromhex (replace_0x script_hash) = Raise ValueError /\
   script_hash_to_address script_hash network = Raise ValueError).
Proof.
  destruct (fromhex_total (replace_0x script_hash)) as [[bs Hbs]|Herr].
  - left. destruct (address_of_decoded _ network _ Hbs) as [a Ha]. eauto.
  - right. split; [exact Herr | now apply address_of_undecoded].
Qed.

Section Prefixes.

Variables frombits tobits maxv max_acc : Z.

(** The loops only append to [ret]. *)
Lemma while_emit_prefix (fuel : nat) acc : forall bits ret b' r',
  while_emit fuel tobits maxv acc bits ret = Return (b', r') ->
  exists more, r' = ret ++ more.
Proof.
  induction fuel as [|fuel IH]; intros bits ret b' r'; simpl;
    destruct (bits <? tobits); try discriminate.
  - intros [= _ <-]. exists []. now rewrite app_nil_r.
  - intros [= _ <-]. exists []. now rewrite app_nil_r.
  - destruct (py_rshift acc (bits - tobits)) as [chunk| |]; try discriminate.
    simpl. intros Hrun. apply IH in Hrun as [more ->].
    eexists. now rewrite <- app_assoc.
Qed.

Lemma convert_loop_prefix data : forall st st',
  convert_loop frombits tobits maxv max_acc st data = Return st' ->
  exists more, st'.2 = st.2 ++ more.
Proof.
  induction data as [|v data IH]; intros [[acc bits] ret] st'.
  - simpl. intros [= <-]. exists []. now rewrite app_nil_r.
  - simpl. destruct (py_lshift acc frombits) as [sh| |]; try discriminate.
    simpl. unfold emit_chunks.
    destruct (while_emit _ _ _ _ _ _) as [[b1 r1]| |] eqn:Hw; try discriminate.
    simpl. intros Hloop. apply IH in Hloop as [more ->]. simpl.
    apply while_emit_prefix in Hw as [more1 ->].
    eexists. now rewrite <- app_assoc.
Qed.

End Prefixes.

(** X14.  Both header bytes begin with the bits 01110, so every address the
    script builds has "w" right after the separator: it is the prefix, then
    "1w", then the rest. *)
Theorem script_address_starts_with_w (script_hash network : string) (hash_bytes : list Z) :
  fromhex (replace_0x script_hash) = Return hash_bytes ->
  exists rest,
    script_hash_to_address script_hash network
    = Return (prefix_of network ++ "1w" ++ rest)%string.
Proof.
  intros Hhex.
  destruct (address_shape script_hash network hash_bytes Hhex)
    as (payload & k & Hc & _ & _ & _ & ->).
  assert (exists rest, payload = 14 :: rest) as [rest ->].
  { assert (exists h, header_byte network ++ hash_bytes = h :: hash_bytes /\
                      convert_step 8 5 31 4095 (0, 0, []) h = Return (h, 3, [14]))
      as (h & Hh & Hstep).
    { unfold header_byte. destruct (String.eqb network "mainnet");
        eexists; (split; [reflexivity | vm_compute; reflexivity]). }
    rewrite Hh, convertbits_unfold in Hc by lia.
    change (2 ^ 5 - 1) with 31 in Hc. change (2 ^ (8 + 5 - 1) - 1) with 4095 in Hc.
    change (convert_loop 8 5 31 4095 (0, 0, []) (h :: hash_bytes))
      with (do st' <- convert_step 8 5 31 4095 (0, 0, []) h;
            convert_loop 8 5 31 4095 st' hash_bytes) in Hc.
    rewrite Hstep in Hc. simpl obind in Hc.
    destruct (convert_loop 8 5 31 4095 (h, 3, [14]) hash_bytes)
      as [[[acc bits] ret]| |] eqn:Hloop; try discriminate.
    apply convert_loop_prefix in Hloop as [more Hmore]. simpl in Hmore. subst ret.
    simpl obind in Hc. destruct (bits =? 0).
    - injection Hc as <-. eauto.
    - destruct (py_lshift acc (5 - bits)) as [sh| |]; try discriminate.
      simpl in Hc. injection Hc as <-. eauto. }
  eexists. reflexivity.
Qed.

Lemma script_address_starts_with_w_witness :
  exists rest,
    script_hash_to_address "0xff00" "mainnet" = Return ("addr" ++ "1w" ++ rest)%string.
Proof.
  apply (script_address_starts_with_w "0xff00" "mainnet" [255; 0]). reflexivity.
Defined.

(** ** Calls one after another *)

Section Globals.










End Globals.



(** ** Decoding the hash *)

Section HexStrings.

(** [bytes.fromhex] returns exactly on the strings that are white space and
    pairs of adjacent hex digits, with the bytes the pairs write. *)
Lemma fromhex_decodes r : forall bs, fromhex r = Return bs <-> decodes r bs.
Proof.
  intros bs. split.
  - revert bs. induction r as [r IH] using string_length_ind. intros bs.
    destruct r as [|c r]; [intros [= <-]; constructor|].
    simpl. destruct (is_space c) eqn:Hsp.
    + intros H. apply decodes_space; [exact Hsp|]. apply IH; [simpl; lia | exact H].
    + destruct (hex_digit c) as [top|] eqn:Hc; [|discriminate].
      destruct r as [|d r]; [discriminate|].
      destruct (hex_digit d) as [bot|] eqn:Hd; [|discriminate].
      destruct (fromhex r) as [bs'| |] eqn:Hr; try discriminate.
      simpl. intros [= <-].
      apply decodes_byte; [exact Hc | exact Hd |].
      apply IH; [simpl; lia | exact Hr].
  - induction 1 as [|c rest bs Hsp _ IH | c d rest top bot bs Hc Hd _ IH].
    + reflexivity.
    + simpl. now rewrite Hsp.
    + simpl. rewrite (hex_not_space _ _ Hc), Hc, Hd, IH. reflexivity.
Qed.

Lemma fromhex_raises_iff r : fromhex r = Raise ValueError <-> forall bs, ~ decodes r bs.
Proof.
  split.
  - intros Herr bs Hd. apply fromhex_decodes in Hd. congruence.
  - intros Hnone. destruct (fromhex_total r) as [[bs Hbs]|Herr]; [|exact Herr].
    apply fromhex_decodes in Hbs. now apply Hnone in Hbs.
Qed.

End HexStrings.

(** C4, amended.  For an input that is a remainder [r] without "0x" in it,
    with or without one leading "0x", [script_hash_to_address] strips that
    prefix and decodes [r] as [bytes.fromhex] does: white space before a byte
    is skipped and each byte is two adjacent hex digits.  It raises
    ValueError exactly when [r] is not of that form, so whenever [r] holds a
    character that is neither a hex digit nor white space, an odd number of
    hex digits, or white space between the two digits of a byte; when [r] is
    of that form it returns the address built from exactly the bytes the
    pairs write, and nothing was dropped but white space: there are twice as
    many hex digits as bytes.  A remainder of hex digit pairs decodes to
    exactly those bytes. *)
Theorem script_hash_decoding (r script_hash network : string) :
  contains_0x r = false ->
  script_hash = r \/ script_hash = ("0x" ++ r)%string ->
  replace_0x script_hash = r /\
  (forallb (fun c => is_hex c || is_space c) (list_ascii_of_string r) = false \/
   Nat.odd (count_hex r) = true ->
   script_hash_to_address script_hash network = Raise ValueError) /\
  (forall bs, fromhex r = Return bs ->
     count_hex r = (2 * length bs)%nat /\
     exists address, script_hash_to_address script_hash network = Return address) /\
  (forall bs, hex_pairs r = Some bs -> fromhex r = Return bs) /\
  (script_hash_to_address script_hash network = Raise ValueError \/
   exists address, script_hash_to_address script_hash network = Return address) /\
  (forall bs, fromhex r = Return bs <-> decodes r bs) /\
  (script_hash_to_address script_hash network = Raise ValueError <->
   forall bs, ~ decodes r bs) /\
  (forall bs, decodes r bs ->
     exists payload,
       convertbits (header_byte network ++ bs) 8 5 true = Return (Some payload) /\
       script_hash_to_address script_hash network =
       Return (prefix_of network ++ "1"
               ++ string_of_list_ascii
                    (map charset_char
                       (payload ++ bech32_create_checksum (prefix_of network) payload)))%string) /\
  (forall c d rest top,
     r = String c (String d rest) -> hex_digit c = Some top -> hex_digit d = None ->
     script_hash_to_address script_hash network = Raise ValueError).
Proof.
  intros Hr Hs.
  assert (replace_0x script_hash = r) as Hrep.
  { destruct Hs as [-> | ->]; [|rewrite replace_0x_leading]; now apply replace_0x_none. }
  split; [exact Hrep|].
  split; [|split; [|split; [|split; [|split; [|split; [|split]]]]]].
  - intros Hbad. apply address_of_undecoded. rewrite Hrep.
    destruct (fromhex_total r) as [[bs Hbs]|Herr]; [|exact Herr].
    apply fromhex_returns in Hbs as (Hall & Hcount & _).
    destruct Hbad as [Hbad|Hodd]; [congruence|].
    rewrite Hcount, Nat.odd_mul in Hodd. discriminate.
  - intros bs Hbs. split; [now apply fromhex_returns in Hbs|].
    apply (address_of_decoded _ _ bs). now rewrite Hrep.
  - apply fromhex_pairs.
  - destruct (fromhex_total r) as [[bs Hbs]|Herr].
    + right. apply (address_of_decoded _ _ bs). now rewrite Hrep.
    + left. apply address_of_undecoded. now rewrite Hrep.
  - apply fromhex_decodes.
  - rewrite <- fromhex_raises_iff. split.
    + intros Hraise. destruct (fromhex_total r) as [[bs Hbs]|Herr]; [|exact Herr].
      destruct (address_of_decoded script_hash network bs) as [a Ha];
        [now rewrite Hrep | congruence].
    + intros Herr. apply address_of_undecoded. now rewrite Hrep.
  - intros bs Hbs. apply fromhex_decodes in Hbs. rewrite <- Hrep in Hbs.
    destruct (address_shape script_hash network bs Hbs)
      as (payload & k & Hc & _ & _ & _ & Ha).
    exists payload. split; assumption.
  - intros c d rest top -> Hc Hd. apply address_of_undecoded. rewrite Hrep.
    simpl. rewrite (hex_not_space _ _ Hc), Hc, Hd. reflexivity.
Qed.

Lemma script_hash_decoding_witness :
  replace_0x "0xab0" = "ab0"%string /\
  script_hash_to_address "0xab0" "testnet" = Raise ValueError.
Proof.
  destruct (script_hash_decoding "ab0" "0xab0" "testnet" eq_refl
              (or_intror eq_refl)) as (H1 & H2 & _).
  split; [exact H1|]. apply H2. right. reflexivity.
Defined.
